(** * Conway's Game of Life (life.py): a shallow embedding and its properties

    The Python program keeps the board as a [Set[Cell]] of integer pairs,
    counts neighbours in a dictionary and drives everything from a curses
    frame loop.  Here cells are pairs of [Z] (Python integers are unbounded),
    sets are [gset], the neighbour dictionary is a [gmap], and operations
    that can raise in Python ([min]/[max] of an empty sequence, list
    indexing) return [option], [None] standing for the raised exception. *)

From Stdlib Require Import Ascii.
From stdpp Require Import gmap strings list fin_maps sorting.

Local Open Scope Z_scope.

(** [Cell = Tuple[int, int]] *)
Abbreviation Cell := (Z * Z)%type.

(** ** Python built-ins used by the program *)

(** [min(xs)]: raises [ValueError] on an empty sequence. *)
Definition py_min (xs : list Z) : option Z :=
  match xs with
  | [] => None
  | x :: xs' => Some (foldl Z.min x xs')
  end.

(** [max(xs)]: raises [ValueError] on an empty sequence. *)
Definition py_max (xs : list Z) : option Z :=
  match xs with
  | [] => None
  | x :: xs' => Some (foldl Z.max x xs')
  end.

(** [0 <= rr < rows and 0 <= cc < cols] *)
Definition in_bounds (rows cols : Z) (p : Cell) : bool :=
  bool_decide (0 ≤ p.1) && bool_decide (p.1 < rows) &&
  bool_decide (0 ≤ p.2) && bool_decide (p.2 < cols).

(** ** normalize_cells (life.py, lines 18-25) *)

(** The comprehension's element [(r - min_r, c - min_c)]. *)
Definition shift_by (min_r min_c : Z) (cell : Cell) : Cell :=
  let '(r, c) := cell in (r - min_r, c - min_c).

Definition normalize_cells (cells : list Cell) : option (list Cell) :=
  let rows := cells.*1 in
  let cols := cells.*2 in
  if bool_decide (rows = []) || bool_decide (cols = []) then Some []
  else
    min_r ← py_min rows;
    min_c ← py_min cols;
    Some (shift_by min_r min_c <$> cells).

(** ** seed_pattern (life.py, lines 28-44) *)

(** Body of the [for r, c in normalized] loop: one [live.add] under the
    bounds test. *)
Definition place (rows cols offset_r offset_c : Z)
    (live : gset Cell) (cell : Cell) : gset Cell :=
  let '(r, c) := cell in
  let rr := r + offset_r in
  let cc := c + offset_c in
  if in_bounds rows cols (rr, cc) then {[ (rr, cc) ]} ∪ live else live.

Definition seed_pattern (cells : list Cell) (rows cols : Z)
    : option (gset Cell) :=
  normalized ← normalize_cells cells;
  if bool_decide (normalized = []) then Some ∅
  else
    max_r ← py_max (normalized.*1);
    max_c ← py_max (normalized.*2);
    let height := max_r + 1 in
    let width := max_c + 1 in
    let offset_r := Z.max 0 ((rows - height) `div` 2) in
    let offset_c := Z.max 0 ((cols - width) `div` 2) in
    Some (foldl (place rows cols offset_r offset_c) ∅ normalized).

(** ** step (life.py, lines 47-62) *)

(** [(-1, 0, 1)], the range of both [dr] and [dc]. *)
Definition deltas : list Z := [-1; 0; 1].

(** [counts.get(key, dflt)] *)
Definition dict_get (counts : gmap Cell Z) (key : Cell) (dflt : Z) : Z :=
  default dflt (counts !! key).

(** Innermost loop body (lines 52-57): skip the centre, then bump the
    count of an in-bounds neighbour position. *)
Definition visit (rows cols r c dr : Z)
    (counts : gmap Cell Z) (dc : Z) : gmap Cell Z :=
  if bool_decide (dr = 0) && bool_decide (dc = 0) then counts
  else
    let rr := r + dr in
    let cc := c + dc in
    if in_bounds rows cols (rr, cc)
    then <[ (rr, cc) := dict_get counts (rr, cc) 0 + 1 ]> counts
    else counts.

(** Lines 49-57 for one live cell: the two nested loops over [deltas]. *)
Definition visit_cell (rows cols : Z)
    (counts : gmap Cell Z) (cell : Cell) : gmap Cell Z :=
  let '(r, c) := cell in
  foldl (λ counts dr, foldl (visit rows cols r c dr) counts deltas)
        counts deltas.

(** The dictionary [counts] after the first loop; [enum] is the order in
    which [for r, c in live] happens to enumerate the set. *)
Definition neighbor_counts (enum : list Cell) (rows cols : Z)
    : gmap Cell Z :=
  foldl (visit_cell rows cols) ∅ enum.

(** [neighbors == 3 or (neighbors == 2 and cell in live)] *)
Definition survives (live : gset Cell) (cell : Cell) (neighbors : Z) : bool :=
  bool_decide (neighbors = 3) ||
  (bool_decide (neighbors = 2) && bool_decide (cell ∈ live)).

(** Second loop (lines 58-61) over [counts.items()]. *)
Definition collect (live : gset Cell)
    (next_live : gset Cell) (item : Cell * Z) : gset Cell :=
  let '(cell, neighbors) := item in
  if survives live cell neighbors then {[ cell ]} ∪ next_live else next_live.

(** [step] run with a given enumeration order [enum] of the set [live]. *)
Definition step_via (enum : list Cell) (live : gset Cell) (rows cols : Z)
    : gset Cell :=
  let counts := neighbor_counts enum rows cols in
  foldl (collect live) ∅ (map_to_list counts).

Definition step (live : gset Cell) (rows cols : Z) : gset Cell :=
  step_via (elements live) live rows cols.

(** The second loop (lines 58-61) run over [items], the order in which
    [counts.items()] yields the entries.  A dictionary yields its entries
    in insertion order, which depends on the order the first loop visited
    the live cells in: [items] is some arrangement of the entries of
    [counts]. *)
Definition collect_all (items : list (Cell * Z)) (live : gset Cell)
    : gset Cell :=
  foldl (collect live) ∅ items.

(** ** parse_pattern (life.py, lines 9-15) *)

(** Inner loop: [for c, ch in enumerate(line)]. *)
Fixpoint parse_line (live_char : ascii) (r c : Z) (line : string)
    (cells : list Cell) : list Cell :=
  match line with
  | EmptyString => cells
  | String ch line' =>
      parse_line live_char r (c + 1) line'
        (if bool_decide (ch = live_char) then cells ++ [(r, c)] else cells)
  end.

(** Outer loop: [for r, line in enumerate(lines)]. *)
Fixpoint parse_lines (live_char : ascii) (r : Z) (lines : list string)
    (cells : list Cell) : list Cell :=
  match lines with
  | [] => cells
  | line :: lines' =>
      parse_lines live_char (r + 1) lines' (parse_line live_char r 0 line cells)
  end.

Definition parse_pattern (lines : list string) (live_char : ascii)
    : list Cell :=
  parse_lines live_char 0 lines [].

(** ** run (life.py, lines 87-182) *)

Module Orchestrator.

(** An entry of the [patterns] list: [{"name": ..., "cells": ...}]. *)
Record pattern := Pattern { name : string; cells : list Cell }.

Definition patterns : list pattern :=
  [ Pattern "Gosper Glider Gun"
      [ (0, 4); (0, 5); (1, 4); (1, 5);
        (10, 4); (10, 5); (10, 6);
        (11, 3); (11, 7);
        (12, 2); (12, 8);
        (13, 2); (13, 8);
        (14, 5);
        (15, 3); (15, 7);
        (16, 4); (16, 5); (16, 6);
        (17, 5);
        (20, 2); (20, 3); (20, 4);
        (21, 2); (21, 3); (21, 4);
        (22, 1); (22, 5);
        (24, 0); (24, 1); (24, 5); (24, 6);
        (34, 2); (34, 3); (35, 2); (35, 3) ];
    Pattern "Pulsar"
      (parse_pattern
         [ "..OOO...OOO..";
           ".............";
           "O....O.O....O";
           "O....O.O....O";
           "O....O.O....O";
           "..OOO...OOO..";
           ".............";
           "..OOO...OOO..";
           "O....O.O....O";
           "O....O.O....O";
           "O....O.O....O";
           ".............";
           "..OOO...OOO.." ]%string "O"%char);
    Pattern "Acorn"
      [ (0, 1); (1, 3); (2, 0); (2, 1); (2, 4); (2, 5); (2, 6) ];
    Pattern "Lightweight Spaceship"
      (parse_pattern
         [ ".O..O";
           "O....";
           "O...O";
           "OOOO." ]%string "O"%char) ].

(** The local variables of [run] that survive from one frame to the next. *)
Record state := State {
  pattern_index : nat;
  rows : Z;
  cols : Z;
  live : gset Cell;
  seen_states : gset Z
}.

(** What the detector tells its caller. *)
Inductive signal := Terminal | Continue.

(** How an iteration of [while True] ends: [break], or on to the next
    iteration with the updated variables. *)
Inductive flow := Break | Next (st : state).

(** [ord(ch)] *)
Definition ord (ch : ascii) : Z := Z.of_N (N_of_ascii ch).

(** [seed_pattern(patterns[index]["cells"], rows, cols)]; indexing past the
    end of the list raises. *)
Definition reseed (index : nat) (rows cols : Z) : option (gset Cell) :=
  pat ← patterns !! index;
  seed_pattern (cells pat) rows cols.

(** Lines 169-171 and again 175-177: advance the index, reseed, clear. *)
Definition next_pattern (st : state) : option state :=
  let index := ((pattern_index st + 1) `mod` length patterns)%nat in
  live' ← reseed index (rows st) (cols st);
  Some (State index (rows st) (cols st) live' ∅).

(** Lines 157-161: a changed terminal size reseeds the current pattern. *)
Definition on_resize (st : state) (size_now : Z * Z) : option state :=
  let '(rows_now, cols_now) := size_now in
  if bool_decide ((rows_now, cols_now) ≠ (rows st, cols st)) then
    live' ← reseed (pattern_index st) rows_now cols_now;
    Some (State (pattern_index st) rows_now cols_now live' ∅)
  else Some st.

Section Frame.

(** [hash(frozenset(live))]: the interpreter's digest of a set of cells,
    a function of the set's members only. *)
Context (hash : gset Cell → Z).

(** The cycle check of lines 173, 174 and 180: the test, and the
    [seen_states.add] that only the fall-through path reaches. *)
Definition detect (seen_states : gset Z) (live : gset Cell)
    : signal * gset Z :=
  let state_hash := hash live in
  if bool_decide (state_hash ∈ seen_states) || bool_decide (live = ∅)
  then (Terminal, seen_states)
  else (Continue, {[ state_hash ]} ∪ seen_states).

(** One iteration of the [while True] loop (lines 157-182).  [size_now] is
    what [getmaxyx] returns and [key] what [getch] returns in this
    iteration; the result pairs the set handed to [draw] with the way the
    iteration ends. *)
Definition run_frame (st : state) (size_now : Z * Z) (key : Z)
    : option (gset Cell * flow) :=
  st ← on_resize st size_now;
  let drawn := live st in
  if bool_decide (key = ord "q") || bool_decide (key = ord "Q")
  then Some (drawn, Break)
  else
    st ← (if bool_decide (key = ord "n") || bool_decide (key = ord "N")
          then next_pattern st else Some st);
    match detect (seen_states st) (live st) with
    | (Terminal, _) =>
        st' ← next_pattern st;
        Some (drawn, Next st')
    | (Continue, seen') =>
        Some (drawn,
              Next (State (pattern_index st) (rows st) (cols st)
                      (step (live st) (rows st) (cols st)) seen'))
    end.

(** Lines 151-154: the variables before the first iteration. *)
Definition run_init (size : Z * Z) : option state :=
  let '(rows, cols) := size in
  live ← reseed 0 rows cols;
  Some (State 0 rows cols live ∅).

End Frame.

End Orchestrator.

(** ** draw (life.py, lines 65-84) *)

(** [ch * n]: a one-character string repeated; empty for [n <= 0]. *)
Fixpoint repeat_char (ch : ascii) (n : nat) : string :=
  match n with
  | O => EmptyString
  | S n' => String ch (repeat_char ch n')
  end.

(** Line 69: [rows_to_cols.setdefault(r, []).append(c)]. *)
Definition bucket (rows_to_cols : gmap Z (list Z)) (cell : Cell)
    : gmap Z (list Z) :=
  let '(r, c) := cell in
  <[ r := default [] (rows_to_cols !! r) ++ [c] ]> rows_to_cols.

(** Lines 75-76: [row[c] = "O"] under the column test.  [row] is the list of
    one-character strings, kept here as a list of characters. *)
Definition mark (cols : Z) (row : list ascii) (c : Z) : list ascii :=
  if bool_decide (0 ≤ c) && bool_decide (c < cols)
  then <[ Z.to_nat c := "O"%char ]> row
  else row.

(** Lines 72-79: the text of screen row [r]. *)
Definition draw_line (rows_to_cols : gmap Z (list Z)) (cols r : Z) : string :=
  let blank := repeat_char " " (Z.to_nat cols) in
  match rows_to_cols !! r with
  | Some cs =>
      let row := replicate (Z.to_nat cols) " "%char in
      String.string_of_list_ascii (foldl (mark cols) row cs)
  | None => blank
  end.

(** [draw] with the enumeration order [enum] of the live set: the calls
    [addstr(r, 0, line)] it makes, in order, as pairs [(r, line)].  An
    error raised by [addstr] is caught and the loop goes on, so every row
    is attempted. *)
Definition draw_via (enum : list Cell) (rows cols : Z) : list (Z * string) :=
  let rows_to_cols := foldl bucket ∅ enum in
  (λ r, (r, draw_line rows_to_cols cols r)) <$> seqZ 0 rows.

Definition draw (live : gset Cell) (rows cols : Z) : list (Z * string) :=
  draw_via (elements live) rows cols.

(** * Specification vocabulary *)

(** ** Minimum and maximum of a list *)

Definition is_min (m : Z) (xs : list Z) : Prop :=
  m ∈ xs ∧ ∀ x, x ∈ xs → m ≤ x.

Definition is_max (m : Z) (xs : list Z) : Prop :=
  m ∈ xs ∧ ∀ x, x ∈ xs → x ≤ m.

(** ** Board bounds *)

(** A position lies within [[0, rows) x [0, cols)]. *)
Definition on_board (rows cols : Z) (p : Cell) : Prop :=
  (0 ≤ p.1 < rows) ∧ (0 ≤ p.2 < cols).

(** ** Neighbourhoods and Conway's rule *)

(** The 8 Moore neighbours of a position (the 3x3 block minus the centre). *)
Definition moore (p : Cell) : list Cell :=
  let '(r, c) := p in
  [ (r - 1, c - 1); (r - 1, c); (r - 1, c + 1);
    (r, c - 1);                 (r, c + 1);
    (r + 1, c - 1); (r + 1, c); (r + 1, c + 1) ].

(** Number of live cells among the 8 Moore neighbours of [p]. *)
Definition live_neighbors (live : gset Cell) (p : Cell) : Z :=
  Z.of_nat (length (filter (λ q, q ∈ live) (moore p))).

(** Conway's rule as the program applies it to a counted position. *)
Definition rule (live : gset Cell) (p : Cell) : Prop :=
  live_neighbors live p = 3 ∨ (live_neighbors live p = 2 ∧ p ∈ live).

(** Every stored count is at least one. *)
Definition positive_counts (counts : gmap Cell Z) : Prop :=
  ∀ p n, counts !! p = Some n → 1 ≤ n.

(** The visit of [(r, c)] with offsets [(dr, dc)] increments position [p]. *)
Definition hits (rows cols r c dr dc : Z) (p : Cell) : Prop :=
  ¬ (dr = 0 ∧ dc = 0) ∧ p = (r + dr, c + dc) ∧ on_board rows cols p.

#[local] Instance on_board_dec rows cols p : Decision (on_board rows cols p).
Proof. unfold on_board. apply _. Defined.

#[local] Instance hits_dec rows cols r c dr dc p :
  Decision (hits rows cols r c dr dc p).
Proof. unfold hits. apply _. Defined.


(** ** The blinker *)

Definition blinker_h : gset Cell := {[ (5, 4); (5, 5); (5, 6) ]}.
Definition blinker_v : gset Cell := {[ (4, 5); (5, 5); (6, 5) ]}.

(** ** Acorn on a 24x80 terminal *)

Module Acorn.

(** The Acorn pattern (index 2) centred on a 24x80 terminal. *)
Definition seed : gset Cell :=
  {[ (10, 37); (11, 39); (12, 36); (12, 37); (12, 40); (12, 41); (12, 42) ]}.

(** Its second generation. *)
Definition next : gset Cell :=
  {[ (11, 36); (11, 37); (11, 38); (11, 40); (11, 41);
     (12, 40); (12, 41); (13, 41) ]}.

End Acorn.

(** ** Translations *)

(** A cell moved by [(dr, dc)]. *)
Definition translate (dr dc : Z) (cell : Cell) : Cell :=
  (cell.1 + dr, cell.2 + dc).

#[local] Instance translate_inj dr dc : Inj (=) (=) (translate dr dc).
Proof. intros [r c] [r' c'] [= ? ?]. f_equal; lia. Qed.

(** ** A sample digest *)

(** One order-independent digest of a set of cells, to run the frame loop on
    concrete inputs; the program uses the interpreter's own. *)
Definition sample_hash (live : gset Cell) : Z :=
  set_fold (λ (cell : Cell) acc, acc + (cell.1 * 1000003 + cell.2)) 0 live.

(** ** Text grids *)

(** The character of [lines] at row [r], column [c], if there is one. *)
Definition char_at (lines : list string) (r c : Z) : option ascii :=
  if bool_decide (0 ≤ r) && bool_decide (0 ≤ c)
  then line ← lines !! Z.to_nat r; String.get (Z.to_nat c) line
  else None.

(** Row-major order on cells. *)
Definition row_major (p q : Cell) : Prop :=
  p.1 < q.1 ∨ (p.1 = q.1 ∧ p.2 < q.2).

(** Screen row [r] as a picture of the live set: ['O'] where a cell lives. *)
Definition render_line (live : gset Cell) (cols r : Z) : string :=
  String.string_of_list_ascii
    ((λ c, if bool_decide ((r, c) ∈ live) then "O" else " ")%char
       <$> seqZ 0 cols).

(** ** Board symmetries *)

(** Mirror image top to bottom on a board of [rows] rows. *)
Definition flip_rows (rows : Z) (p : Cell) : Cell := (rows - 1 - p.1, p.2).

(** Mirror image left to right on a board of [cols] columns. *)
Definition flip_cols (cols : Z) (p : Cell) : Cell := (p.1, cols - 1 - p.2).

(** ** The frame loop *)

(** What the loop keeps true of its variables: the pattern index is within
    the catalogue and every live cell is on the board of the recorded
    size. *)
Definition valid_state (st : Orchestrator.state) : Prop :=
  (Orchestrator.pattern_index st < length Orchestrator.patterns)%nat ∧
  ∀ p, p ∈ Orchestrator.live st →
       on_board (Orchestrator.rows st) (Orchestrator.cols st) p.

(** The live set after [n] more generations on a board of the given size. *)
Definition generation (rows cols : Z) (n : nat) (live : gset Cell)
    : gset Cell :=
  Nat.iter n (λ s, step s rows cols) live.

(** [n] consecutive frames in which the terminal keeps its size and no key
    is pressed ([getch] returns -1); the variables after them. *)
Fixpoint idle_frames (hash : gset Cell → Z) (n : nat)
    (st : Orchestrator.state) : option Orchestrator.state :=
  match n with
  | O => Some st
  | S n' =>
      match Orchestrator.run_frame hash st
              (Orchestrator.rows st, Orchestrator.cols st) (-1) with
      | Some (_, Orchestrator.Next st') => idle_frames hash n' st'
      | _ => None
      end
  end.

(** The variables right after a move to the next pattern from [st]. *)
Definition advanced (st st' : Orchestrator.state) : Prop :=
  Orchestrator.pattern_index st'
    = ((Orchestrator.pattern_index st + 1)
         `mod` length Orchestrator.patterns)%nat ∧
  Orchestrator.rows st' = Orchestrator.rows st ∧
  Orchestrator.cols st' = Orchestrator.cols st ∧
  Orchestrator.seen_states st' = ∅ ∧
  Orchestrator.reseed (Orchestrator.pattern_index st')
    (Orchestrator.rows st) (Orchestrator.cols st)
    = Some (Orchestrator.live st').
(** * Lemmas *)

(** ** Minimum and maximum of a list *)

Lemma foldl_min_is_min (xs : list Z) (a : Z) :
  is_min (foldl Z.min a xs) (a :: xs).
Proof.
  revert a. induction xs as [|x xs IH]; intros a; simpl.
  - split; [by left|]. intros y Hy. apply list_elem_of_singleton in Hy. lia.
  - destruct (IH (Z.min a x)) as [Hin Hle]. split.
    + apply elem_of_cons in Hin as [Heq|Hin]; [|by do 2 right].
      rewrite Heq. destruct (Z.min_spec a x) as [[_ ->]|[_ ->]];
        [by left|by right; left].
    + intros y Hy.
      assert (foldl Z.min (Z.min a x) xs ≤ Z.min a x) by (apply Hle; by left).
      apply elem_of_cons in Hy as [->|Hy]; [lia|].
      apply elem_of_cons in Hy as [->|Hy]; [lia|].
      apply Hle. by right.
Qed.

Lemma foldl_max_is_max (xs : list Z) (a : Z) :
  is_max (foldl Z.max a xs) (a :: xs).
Proof.
  revert a. induction xs as [|x xs IH]; intros a; simpl.
  - split; [by left|]. intros y Hy. apply list_elem_of_singleton in Hy. lia.
  - destruct (IH (Z.max a x)) as [Hin Hle]. split.
    + apply elem_of_cons in Hin as [Heq|Hin]; [|by do 2 right].
      rewrite Heq. destruct (Z.max_spec a x) as [[_ ->]|[_ ->]];
        [by right; left|by left].
    + intros y Hy.
      assert (Z.max a x ≤ foldl Z.max (Z.max a x) xs) by (apply Hle; by left).
      apply elem_of_cons in Hy as [->|Hy]; [lia|].
      apply elem_of_cons in Hy as [->|Hy]; [lia|].
      apply Hle. by right.
Qed.

Lemma py_min_is_Some (xs : list Z) :
  xs ≠ [] → ∃ m, py_min xs = Some m ∧ is_min m xs.
Proof.
  destruct xs as [|x xs]; [done|]. intros _. eexists. split; [done|].
  apply foldl_min_is_min.
Qed.

Lemma py_max_is_Some (xs : list Z) :
  xs ≠ [] → ∃ m, py_max xs = Some m ∧ is_max m xs.
Proof.
  destruct xs as [|x xs]; [done|]. intros _. eexists. split; [done|].
  apply foldl_max_is_max.
Qed.

Lemma is_min_unique (m m' : Z) (xs : list Z) :
  is_min m xs → is_min m' xs → m = m'.
Proof. intros [H1 H2] [H3 H4]. specialize (H2 _ H3). specialize (H4 _ H1). lia. Qed.

Lemma is_max_unique (m m' : Z) (xs : list Z) :
  is_max m xs → is_max m' xs → m = m'.
Proof. intros [H1 H2] [H3 H4]. specialize (H2 _ H3). specialize (H4 _ H1). lia. Qed.

Lemma py_min_eq (m : Z) (xs : list Z) : is_min m xs → py_min xs = Some m.
Proof.
  intros Hm. destruct (py_min_is_Some xs) as (m' & -> & Hm').
  - intros ->. destruct Hm as [Hm _]. by apply elem_of_nil in Hm.
  - f_equal. eapply is_min_unique; eauto.
Qed.

Lemma py_max_eq (m : Z) (xs : list Z) : is_max m xs → py_max xs = Some m.
Proof.
  intros Hm. destruct (py_max_is_Some xs) as (m' & -> & Hm').
  - intros ->. destruct Hm as [Hm _]. by apply elem_of_nil in Hm.
  - f_equal. eapply is_max_unique; eauto.
Qed.

(** ** normalize_cells *)

Lemma shift_by_fst (a b : Z) (cells : list Cell) :
  (shift_by a b <$> cells).*1 = (λ r, r - a) <$> cells.*1.
Proof.
  rewrite <- !list_fmap_compose. apply list_fmap_ext.
  by intros i [r c] _.
Qed.

Lemma shift_by_snd (a b : Z) (cells : list Cell) :
  (shift_by a b <$> cells).*2 = (λ c, c - b) <$> cells.*2.
Proof.
  rewrite <- !list_fmap_compose. apply list_fmap_ext.
  by intros i [r c] _.
Qed.

Lemma is_min_shift (m : Z) (xs : list Z) :
  is_min m xs → is_min 0 ((λ x, x - m) <$> xs).
Proof.
  intros [Hin Hle]. split.
  - apply list_elem_of_fmap. exists m. split; [lia|done].
  - intros y Hy. apply list_elem_of_fmap in Hy as (x & -> & Hx).
    specialize (Hle _ Hx). lia.
Qed.

Lemma normalize_cells_nil : normalize_cells [] = Some [].
Proof. reflexivity. Qed.

Lemma normalize_cells_cons (cells : list Cell) :
  cells ≠ [] →
  ∃ min_r min_c, is_min min_r cells.*1 ∧ is_min min_c cells.*2 ∧
    normalize_cells cells = Some (shift_by min_r min_c <$> cells).
Proof.
  intros Hne.
  destruct (py_min_is_Some cells.*1) as (min_r & Hr & Hmr).
  { by destruct cells. }
  destruct (py_min_is_Some cells.*2) as (min_c & Hc & Hmc).
  { by destruct cells. }
  exists min_r, min_c. split_and!; [done..|].
  unfold normalize_cells. rewrite Hr, Hc.
  destruct cells; [done|]. reflexivity.
Qed.

Lemma normalize_cells_total (cells : list Cell) :
  ∃ res, normalize_cells cells = Some res.
Proof.
  destruct (decide (cells = [])) as [->|Hne]; [by eexists|].
  destruct (normalize_cells_cons cells Hne) as (? & ? & _ & _ & ->). by eexists.
Qed.

Lemma normalize_cells_fixed (cells : list Cell) :
  is_min 0 cells.*1 → is_min 0 cells.*2 → normalize_cells cells = Some cells.
Proof.
  intros Hr Hc.
  assert (cells ≠ []) as Hne.
  { intros ->. destruct Hr as [Hr _]. by apply elem_of_nil in Hr. }
  destruct (normalize_cells_cons cells Hne) as (mr & mc & Hmr & Hmc & ->).
  rewrite <- (is_min_unique _ _ _ Hr Hmr), <- (is_min_unique _ _ _ Hc Hmc).
  f_equal. rewrite <- (list_fmap_id cells) at 2. apply list_fmap_ext.
  intros i [r c] _. simpl. f_equal; lia.
Qed.

(** ** Board bounds *)

Lemma in_bounds_on_board (rows cols : Z) (p : Cell) :
  in_bounds rows cols p = true ↔ on_board rows cols p.
Proof.
  unfold in_bounds, on_board.
  rewrite !andb_true_iff, !bool_decide_eq_true. tauto.
Qed.

Lemma in_bounds_off_board (rows cols : Z) (p : Cell) :
  in_bounds rows cols p = false ↔ ¬ on_board rows cols p.
Proof. rewrite <- in_bounds_on_board. by destruct (in_bounds rows cols p). Qed.

(** ** seed_pattern *)

Lemma elem_of_foldl_place (rows cols offset_r offset_c : Z)
    (cells : list Cell) (acc : gset Cell) (p : Cell) :
  p ∈ foldl (place rows cols offset_r offset_c) acc cells ↔
  p ∈ acc ∨ ∃ r c, (r, c) ∈ cells ∧ p = (r + offset_r, c + offset_c) ∧
                    on_board rows cols p.
Proof.
  revert acc. induction cells as [|[r c] cells IH]; intros acc; simpl.
  - split; [by left|]. intros [?|(r & c & Hin & _)]; [done|].
    by apply elem_of_nil in Hin.
  - rewrite IH. unfold place.
    destruct (in_bounds rows cols (r + offset_r, c + offset_c)) eqn:Hb.
    + apply in_bounds_on_board in Hb.
      rewrite elem_of_union, elem_of_singleton. split.
      * intros [[->|?]|(r' & c' & Hin & ? & ?)]; [right|by left|right].
        -- exists r, c. split_and!; [by left|done..].
        -- exists r', c'. split_and!; [by right|done..].
      * intros [?|(r' & c' & Hin & Hp & ?)]; [by left; right|].
        apply elem_of_cons in Hin as [[= -> ->]|Hin]; [by left; left|].
        right. by exists r', c'.
    + apply in_bounds_off_board in Hb. split.
      * intros [?|(r' & c' & Hin & ? & ?)]; [by left|right].
        exists r', c'. split_and!; [by right|done..].
      * intros [?|(r' & c' & Hin & Hp & Hon)]; [by left|].
        apply elem_of_cons in Hin as [[= -> ->]|Hin]; [by subst p|].
        right. by exists r', c'.
Qed.

Lemma seed_pattern_nil (rows cols : Z) : seed_pattern [] rows cols = Some ∅.
Proof. reflexivity. Qed.

Lemma normalize_cells_nil_inv (cells : list Cell) :
  normalize_cells cells = Some [] → cells = [].
Proof.
  destruct (decide (cells = [])) as [|Hne]; [done|].
  destruct (normalize_cells_cons cells Hne) as (? & ? & _ & _ & ->).
  intros [= H]. by apply fmap_nil_inv in H.
Qed.

Lemma seed_pattern_cons (cells normalized : list Cell) (rows cols : Z) :
  cells ≠ [] → normalize_cells cells = Some normalized →
  ∃ max_r max_c, is_max max_r normalized.*1 ∧ is_max max_c normalized.*2 ∧
    seed_pattern cells rows cols =
      Some (foldl (place rows cols
                     (Z.max 0 ((rows - (max_r + 1)) `div` 2))
                     (Z.max 0 ((cols - (max_c + 1)) `div` 2)))
                  ∅ normalized).
Proof.
  intros Hne Hnorm.
  assert (normalized ≠ []) as Hne'.
  { intros ->. by apply normalize_cells_nil_inv in Hnorm. }
  destruct (py_max_is_Some normalized.*1) as (max_r & Hr & Hmr).
  { by destruct normalized. }
  destruct (py_max_is_Some normalized.*2) as (max_c & Hc & Hmc).
  { by destruct normalized. }
  exists max_r, max_c. split_and!; [done..|].
  unfold seed_pattern. rewrite Hnorm. simpl.
  rewrite bool_decide_eq_false_2 by done. by rewrite Hr, Hc.
Qed.

Lemma seed_pattern_total (cells : list Cell) (rows cols : Z) :
  ∃ live, seed_pattern cells rows cols = Some live.
Proof.
  destruct (decide (cells = [])) as [->|Hne]; [by eexists|].
  destruct (normalize_cells_total cells) as [normalized Hnorm].
  destruct (seed_pattern_cons _ _ rows cols Hne Hnorm) as (? & ? & _ & _ & ->).
  by eexists.
Qed.

(** Number of distinct elements is invariant under an injective map. *)
Lemma size_list_to_set_fmap_inj (f : Cell → Cell) `{!Inj (=) (=) f}
    (l : list Cell) :
  size (list_to_set (f <$> l) : gset Cell) = size (list_to_set l : gset Cell).
Proof.
  induction l as [|x l IH]; [done|].
  rewrite fmap_cons, !list_to_set_cons.
  destruct (decide (x ∈ l)) as [Hin|Hnin].
  - rewrite !(subseteq_union_1_L {[_]}); [done|..].
    + apply singleton_subseteq_l, elem_of_list_to_set. done.
    + apply singleton_subseteq_l, elem_of_list_to_set.
      apply list_elem_of_fmap. by exists x.
  - rewrite !size_union, !size_singleton, IH; [done|..].
    + apply disjoint_singleton_l. by rewrite elem_of_list_to_set.
    + apply disjoint_singleton_l. rewrite elem_of_list_to_set.
      intros (y & Heq & Hy)%list_elem_of_fmap.
      apply (inj f) in Heq. by subst y.
Qed.

(** ** step: what the neighbour dictionary holds *)

Lemma moore_NoDup (p : Cell) : NoDup (moore p).
Proof.
  destruct p as [r c]. unfold moore.
  repeat (apply NoDup_cons; split;
          [rewrite ?elem_of_cons, elem_of_nil; intros H;
           decompose [or] H; simplify_eq; lia|]).
  apply NoDup_nil_2.
Qed.

Lemma moore_sym (p q : Cell) : p ∈ moore q ↔ q ∈ moore p.
Proof.
  destruct p as [pr pc], q as [qr qc]. unfold moore.
  rewrite !elem_of_cons, !elem_of_nil.
  split; intros H; decompose [or] H; simplify_eq;
    repeat (first [left; f_equal; lia | right]); done.
Qed.

Lemma lookup_visit (rows cols r c dr dc : Z) (counts : gmap Cell Z) (p : Cell) :
  visit rows cols r c dr counts dc !! p =
    if decide (hits rows cols r c dr dc p)
    then Some (dict_get counts p 0 + 1) else counts !! p.
Proof.
  unfold visit, hits.
  destruct (bool_decide (dr = 0) && bool_decide (dc = 0)) eqn:Hc.
  { apply andb_true_iff in Hc as [?%bool_decide_eq_true ?%bool_decide_eq_true].
    rewrite decide_False; [done|]. intros (Hn & _). by apply Hn. }
  apply andb_false_iff in Hc.
  assert (¬ (dr = 0 ∧ dc = 0)) as Hn.
  { intros [-> ->]. destruct Hc as [Hc|Hc];
      by rewrite bool_decide_eq_true_2 in Hc. }
  simpl. destruct (in_bounds rows cols (r + dr, c + dc)) eqn:Hb.
  - apply in_bounds_on_board in Hb.
    destruct (decide (p = (r + dr, c + dc))) as [->|Hne].
    + rewrite lookup_insert_eq, decide_True; done.
    + rewrite lookup_insert_ne by done.
      rewrite decide_False; [done|]. by intros (_ & ? & _).
  - apply in_bounds_off_board in Hb.
    rewrite decide_False; [done|]. intros (_ & -> & ?). done.
Qed.

Lemma dict_get_visit (rows cols r c dr dc : Z) (counts : gmap Cell Z) (p : Cell) :
  dict_get (visit rows cols r c dr counts dc) p 0 =
    dict_get counts p 0 +
    (if decide (hits rows cols r c dr dc p) then 1 else 0).
Proof.
  unfold dict_get at 1. rewrite lookup_visit.
  destruct (decide _); simpl; [done|]. unfold dict_get. lia.
Qed.

Lemma positive_counts_get (counts : gmap Cell Z) (p : Cell) :
  positive_counts counts → 0 ≤ dict_get counts p 0.
Proof.
  intros Hpos. unfold dict_get.
  destruct (counts !! p) as [n|] eqn:Hp; simpl; [|lia].
  specialize (Hpos _ _ Hp). lia.
Qed.

Lemma positive_counts_visit (rows cols r c dr dc : Z) (counts : gmap Cell Z) :
  positive_counts counts →
  positive_counts (visit rows cols r c dr counts dc).
Proof.
  intros Hpos p n. rewrite lookup_visit.
  destruct (decide _); [|apply Hpos].
  intros [= <-]. pose proof (positive_counts_get counts p Hpos). lia.
Qed.

Lemma positive_counts_lookup (counts : gmap Cell Z) (p : Cell) (n : Z) :
  positive_counts counts →
  counts !! p = Some n ↔ dict_get counts p 0 = n ∧ 1 ≤ n.
Proof.
  intros Hpos. unfold dict_get. split.
  - intros Hp. rewrite Hp. split; [done|]. by apply (Hpos p).
  - destruct (counts !! p); simpl; intros [<- ?]; [done|lia].
Qed.

Ltac hit_yes :=
  first
    [ unfold hits; split_and!; [lia | f_equal; lia | assumption]
    | split; [assumption|];
      unfold moore; rewrite !elem_of_cons;
      repeat (first [left; f_equal; lia | right]); fail ].

Ltac hit_no :=
  first
    [ unfold hits; intros (Hn & Heq & _);
      first [injection Heq; intros; lia | apply Hn; lia]
    | let Hin := fresh in
      intros [_ Hin]; unfold moore in Hin;
      rewrite !elem_of_cons, elem_of_nil in Hin;
      decompose [or] Hin; simplify_eq; lia ].

Ltac settle_hits :=
  repeat first [ rewrite decide_True by hit_yes
               | rewrite decide_False by hit_no ].

Lemma dict_get_visit_cell (rows cols : Z) (counts : gmap Cell Z)
    (cell p : Cell) :
  dict_get (visit_cell rows cols counts cell) p 0 =
    dict_get counts p 0 +
    (if decide (on_board rows cols p ∧ cell ∈ moore p) then 1 else 0).
Proof.
  destruct cell as [r c], p as [pr pc].
  unfold visit_cell, deltas. cbn [foldl]. rewrite !dict_get_visit.
  destruct (decide (on_board rows cols (pr, pc))) as [Hon|Hoff].
  - assert (pr - r = -1 ∨ pr - r = 0 ∨ pr - r = 1 ∨ ¬ (-1 ≤ pr - r ≤ 1))
      as Hr by lia.
    assert (pc - c = -1 ∨ pc - c = 0 ∨ pc - c = 1 ∨ ¬ (-1 ≤ pc - c ≤ 1))
      as Hc by lia.
    destruct Hr as [Hr|[Hr|[Hr|Hr]]], Hc as [Hc|[Hc|[Hc|Hc]]];
      settle_hits; lia.
  - rewrite !decide_False; [lia|unfold hits; tauto..].
Qed.

Lemma positive_counts_visit_cell (rows cols : Z) (counts : gmap Cell Z)
    (cell : Cell) :
  positive_counts counts → positive_counts (visit_cell rows cols counts cell).
Proof.
  intros Hpos. destruct cell as [r c]. unfold visit_cell, deltas. cbn [foldl].
  repeat apply positive_counts_visit. done.
Qed.

Lemma positive_counts_foldl (rows cols : Z) (enum : list Cell)
    (counts : gmap Cell Z) :
  positive_counts counts →
  positive_counts (foldl (visit_cell rows cols) counts enum).
Proof.
  revert counts. induction enum as [|cell enum IH]; intros counts Hpos; [done|].
  simpl. by apply IH, positive_counts_visit_cell.
Qed.

Lemma dict_get_foldl (rows cols : Z) (enum : list Cell)
    (counts : gmap Cell Z) (p : Cell) :
  dict_get (foldl (visit_cell rows cols) counts enum) p 0 =
    dict_get counts p 0 +
    (if decide (on_board rows cols p)
     then Z.of_nat (length (filter (λ q, q ∈ moore p) enum)) else 0).
Proof.
  revert counts. induction enum as [|cell enum IH]; intros counts.
  - simpl. destruct (decide _); simpl; lia.
  - simpl foldl. rewrite IH, dict_get_visit_cell, filter_cons.
    destruct (decide (on_board rows cols p)) as [Hon|Hoff].
    + destruct (decide (cell ∈ moore p)).
      * rewrite decide_True by done. simpl length. lia.
      * rewrite decide_False by tauto. lia.
    + rewrite decide_False by tauto. lia.
Qed.

(** Counting the members of one duplicate-free list inside another is
    symmetric. *)
Lemma length_filter_swap (l1 l2 : list Cell) :
  NoDup l1 → NoDup l2 →
  length (filter (λ q, q ∈ l2) l1) = length (filter (λ q, q ∈ l1) l2).
Proof.
  intros H1 H2. apply Permutation_length, NoDup_Permutation.
  - by apply NoDup_filter.
  - by apply NoDup_filter.
  - intros x. rewrite !list_elem_of_filter. tauto.
Qed.

Lemma neighbor_counts_get (enum : list Cell) (live : gset Cell)
    (rows cols : Z) (p : Cell) :
  NoDup enum → (∀ x, x ∈ enum ↔ x ∈ live) →
  dict_get (neighbor_counts enum rows cols) p 0 =
    if decide (on_board rows cols p) then live_neighbors live p else 0.
Proof.
  intros Hnd Henum. unfold neighbor_counts. rewrite dict_get_foldl.
  unfold dict_get at 1. rewrite lookup_empty. simpl.
  destruct (decide _); [|done]. unfold live_neighbors.
  rewrite (length_filter_swap enum (moore p) Hnd (moore_NoDup p)).
  rewrite Z.add_0_l. do 2 f_equal. apply list_filter_iff. intros x. apply Henum.
Qed.

Lemma neighbor_counts_positive (enum : list Cell) (rows cols : Z) :
  positive_counts (neighbor_counts enum rows cols).
Proof. apply positive_counts_foldl. intros p n. by rewrite lookup_empty. Qed.

Lemma neighbor_counts_lookup (enum : list Cell) (live : gset Cell)
    (rows cols : Z) (p : Cell) (n : Z) :
  NoDup enum → (∀ x, x ∈ enum ↔ x ∈ live) →
  neighbor_counts enum rows cols !! p = Some n ↔
  on_board rows cols p ∧ live_neighbors live p = n ∧ 1 ≤ n.
Proof.
  intros Hnd Henum.
  rewrite (positive_counts_lookup _ _ _ (neighbor_counts_positive _ _ _)).
  rewrite (neighbor_counts_get enum live) by done.
  destruct (decide _); [tauto|]. split; [lia|tauto].
Qed.

Lemma elem_of_foldl_collect (live acc : gset Cell) (items : list (Cell * Z))
    (p : Cell) :
  p ∈ foldl (collect live) acc items ↔
  p ∈ acc ∨ ∃ n, (p, n) ∈ items ∧ survives live p n = true.
Proof.
  revert acc. induction items as [|[q m] items IH]; intros acc; simpl.
  - split; [by left|]. intros [?|(n & Hin & _)]; [done|].
    by apply elem_of_nil in Hin.
  - rewrite IH. destruct (survives live q m) eqn:Hs.
    + rewrite elem_of_union, elem_of_singleton. split.
      * intros [[->|?]|(n & Hin & ?)]; [right|by left|right].
        -- exists m. split; [by left|done].
        -- exists n. split; [by right|done].
      * intros [?|(n & Hin & Hp)]; [by left; right|].
        apply elem_of_cons in Hin as [[= -> ->]|Hin]; [by left; left|].
        right. by exists n.
    + split.
      * intros [?|(n & Hin & ?)]; [by left|right].
        exists n. split; [by right|done].
      * intros [?|(n & Hin & Hp)]; [by left|].
        apply elem_of_cons in Hin as [[= -> ->]|Hin]; [congruence|].
        right. by exists n.
Qed.

Lemma survives_rule (live : gset Cell) (p : Cell) :
  survives live p (live_neighbors live p) = true ↔ rule live p.
Proof.
  unfold survives, rule.
  rewrite orb_true_iff, andb_true_iff, !bool_decide_eq_true. tauto.
Qed.

(** Membership in the next generation, for any enumeration of the set. *)
Lemma elem_of_step_via (enum : list Cell) (live : gset Cell)
    (rows cols : Z) (p : Cell) :
  NoDup enum → (∀ x, x ∈ enum ↔ x ∈ live) →
  p ∈ step_via enum live rows cols ↔ on_board rows cols p ∧ rule live p.
Proof.
  intros Hnd Henum. unfold step_via. rewrite elem_of_foldl_collect.
  rewrite <- survives_rule. split.
  - intros [Hp|(n & Hin & Hs)]; [by apply not_elem_of_empty in Hp|].
    apply elem_of_map_to_list in Hin.
    apply (neighbor_counts_lookup enum live) in Hin as (? & <- & _); done.
  - intros [Hon Hs]. right. exists (live_neighbors live p). split; [|done].
    apply elem_of_map_to_list, (neighbor_counts_lookup enum live); [done..|].
    split_and!; [done..|].
    apply survives_rule in Hs as [?|[? _]]; lia.
Qed.

Lemma elem_of_step (live : gset Cell) (rows cols : Z) (p : Cell) :
  p ∈ step live rows cols ↔ on_board rows cols p ∧ rule live p.
Proof.
  apply elem_of_step_via; [apply NoDup_elements|].
  intros x. apply elem_of_elements.
Qed.

(** * Normalisation and seeding *)

Lemma shift_by_translate (min_r min_c : Z) (cells : list Cell) :
  shift_by min_r min_c <$> cells = translate (- min_r) (- min_c) <$> cells.
Proof. apply list_fmap_ext. by intros i [r c] _. Qed.

Lemma normalize_cells_origin (cells : list Cell) (min_r min_c : Z) :
  is_min min_r cells.*1 → is_min min_c cells.*2 →
  is_min 0 (shift_by min_r min_c <$> cells).*1 ∧
  is_min 0 (shift_by min_r min_c <$> cells).*2.
Proof.
  intros Hr Hc. rewrite shift_by_fst, shift_by_snd.
  split; by apply is_min_shift.
Qed.

(** C5: on a non-empty list [normalize_cells] returns every cell shifted by
    [(-min_row, -min_col)], where [min_row] and [min_col] are the least row
    and column of the input (negative coordinates included), so that the
    least row and the least column of the result are both exactly 0; on the
    empty list it returns the empty list and raises nothing. *)
Theorem normalize_cells_shifts_to_origin :
  normalize_cells [] = Some [] ∧
  ∀ cells : list Cell, cells ≠ [] →
    ∃ min_r min_c,
      is_min min_r cells.*1 ∧ is_min min_c cells.*2 ∧
      normalize_cells cells = Some (translate (- min_r) (- min_c) <$> cells) ∧
      is_min 0 (translate (- min_r) (- min_c) <$> cells).*1 ∧
      is_min 0 (translate (- min_r) (- min_c) <$> cells).*2.
Proof.
  split; [done|]. intros cells Hne.
  destruct (normalize_cells_cons cells Hne) as (min_r & min_c & Hr & Hc & Heq).
  exists min_r, min_c. rewrite <- shift_by_translate.
  destruct (normalize_cells_origin cells min_r min_c Hr Hc) as [Hr0 Hc0].
  by split_and!.
Qed.

Lemma normalize_cells_shifts_to_origin_witness :
  ∃ min_r min_c,
    is_min min_r [(3, -2); (1, 5)].*1 ∧ is_min min_c [(3, -2); (1, 5)].*2 ∧
    normalize_cells [(3, -2); (1, 5)] =
      Some (translate (- min_r) (- min_c) <$> [(3, -2); (1, 5)]) ∧
    is_min 0 (translate (- min_r) (- min_c) <$> [(3, -2); (1, 5)]).*1 ∧
    is_min 0 (translate (- min_r) (- min_c) <$> [(3, -2); (1, 5)]).*2.
Proof.
  apply (proj2 normalize_cells_shifts_to_origin [(3, -2); (1, 5)]).
  discriminate.
Defined.

(** C9: [normalize_cells] is idempotent (its result, and any list whose least
    row and column are already 0, is returned unchanged), keeps the length
    of the list, and keeps the relative shape: the coordinate-wise difference
    of any two cells of the input is the difference of the cells at the same
    two places of the output. *)
Theorem normalize_cells_idempotent_shape (cells : list Cell) :
  ∃ res,
    normalize_cells cells = Some res ∧
    normalize_cells res = Some res ∧
    (is_min 0 cells.*1 → is_min 0 cells.*2 → res = cells) ∧
    length res = length cells ∧
    ∀ (i j : nat) (a b a' b' : Cell),
      cells !! i = Some a → cells !! j = Some b →
      res !! i = Some a' → res !! j = Some b' →
      a'.1 - b'.1 = a.1 - b.1 ∧ a'.2 - b'.2 = a.2 - b.2.
Proof.
  destruct (decide (cells = [])) as [->|Hne].
  { exists []. by split_and!. }
  destruct (normalize_cells_cons cells Hne) as (min_r & min_c & Hr & Hc & Heq).
  exists (shift_by min_r min_c <$> cells).
  destruct (normalize_cells_origin cells min_r min_c Hr Hc) as [Hr0 Hc0].
  split_and!.
  - done.
  - by apply normalize_cells_fixed.
  - intros Hr' Hc'.
    pose proof (normalize_cells_fixed cells Hr' Hc') as Hfix. congruence.
  - apply length_fmap.
  - intros i j [ar ac] [br bc] a' b' Ha Hb.
    rewrite !list_lookup_fmap, Ha, Hb. simpl.
    intros [= <-] [= <-]. simpl. lia.
Qed.

Lemma normalize_cells_idempotent_shape_witness :
  ∃ res,
    normalize_cells [(3, -2); (1, 5); (-4, 0)] = Some res ∧
    normalize_cells res = Some res ∧
    (is_min 0 [(3, -2); (1, 5); (-4, 0)].*1 →
     is_min 0 [(3, -2); (1, 5); (-4, 0)].*2 → res = [(3, -2); (1, 5); (-4, 0)]) ∧
    length res = length [(3, -2); (1, 5); (-4, 0)] ∧
    ∀ (i j : nat) (a b a' b' : Cell),
      [(3, -2); (1, 5); (-4, 0)] !! i = Some a →
      [(3, -2); (1, 5); (-4, 0)] !! j = Some b →
      res !! i = Some a' → res !! j = Some b' →
      a'.1 - b'.1 = a.1 - b.1 ∧ a'.2 - b'.2 = a.2 - b.2.
Proof. exact (normalize_cells_idempotent_shape [(3, -2); (1, 5); (-4, 0)]). Defined.

Lemma elem_of_placed (rows cols offset_r offset_c : Z) (cells : list Cell)
    (p : Cell) :
  p ∈ foldl (place rows cols offset_r offset_c) ∅ cells ↔
  ∃ cell, cell ∈ cells ∧ p = translate offset_r offset_c cell ∧
          on_board rows cols p.
Proof.
  rewrite elem_of_foldl_place. split.
  - intros [Hp|(r & c & ? & ? & ?)]; [by apply not_elem_of_empty in Hp|].
    by exists (r, c).
  - intros ([r c] & ? & ? & ?). right. by exists r, c.
Qed.

Lemma placed_all (rows cols offset_r offset_c : Z) (cells : list Cell) :
  (∀ cell, cell ∈ cells → on_board rows cols (translate offset_r offset_c cell)) →
  foldl (place rows cols offset_r offset_c) ∅ cells
    = list_to_set (translate offset_r offset_c <$> cells).
Proof.
  intros Hall. apply set_eq. intros p.
  rewrite elem_of_placed, elem_of_list_to_set, list_elem_of_fmap. split.
  - intros (cell & ? & ? & _). by exists cell.
  - intros (cell & -> & ?). exists cell. split_and!; [done..|by apply Hall].
Qed.

Lemma elem_of_fst (r c : Z) (cells : list Cell) : (r, c) ∈ cells → r ∈ cells.*1.
Proof. intros H. apply list_elem_of_fmap. by exists (r, c). Qed.

Lemma elem_of_snd (r c : Z) (cells : list Cell) : (r, c) ∈ cells → c ∈ cells.*2.
Proof. intros H. apply list_elem_of_fmap. by exists (r, c). Qed.

(** A coordinate between 0 and [hi], moved by the centring offset of an
    extent [hi + 1] that fits in [size], stays inside [[0, size)]. *)
Lemma centred_in_range (size hi x : Z) :
  0 ≤ x ≤ hi → hi + 1 ≤ size →
  0 ≤ x + Z.max 0 ((size - (hi + 1)) `div` 2) < size.
Proof.
  intros Hx Hfit.
  assert (0 ≤ (size - (hi + 1)) `div` 2) by (apply Z.div_pos; lia).
  assert ((size - (hi + 1)) `div` 2 ≤ size - (hi + 1))
    by (apply Z.div_le_upper_bound; lia).
  lia.
Qed.

(** C4: [seed_pattern] normalizes the cells (a non-empty list becomes the
    list shifted by [(-min_row, -min_col)]), takes the row offset
    [max(0, (rows - height) // 2)] and the column offset
    [max(0, (cols - width) // 2)] over the bounding box of the normalized
    cells ([height = max_row + 1], [width = max_col + 1], floor division),
    moves every normalized cell by these offsets and keeps exactly the moved
    cells that lie within [[0, rows) x [0, cols)].  Hence a non-empty pattern
    whose bounding box fits the board gives a live set with as many cells as
    the pattern has distinct cells, every cell of the result is in bounds,
    the empty pattern gives the empty set, and [rows = 0] or [cols = 0]
    gives the empty set. *)
Theorem seed_pattern_centres (cells : list Cell) (rows cols : Z) :
  ∃ normalized live,
    normalize_cells cells = Some normalized ∧
    seed_pattern cells rows cols = Some live ∧
    (cells = [] → normalized = [] ∧ live = ∅) ∧
    (cells ≠ [] →
     ∃ min_r min_c max_r max_c,
       is_min min_r cells.*1 ∧ is_min min_c cells.*2 ∧
       normalized = translate (- min_r) (- min_c) <$> cells ∧
       is_max max_r normalized.*1 ∧ is_max max_c normalized.*2 ∧
       let height := max_r + 1 in
       let width := max_c + 1 in
       let offset_r := Z.max 0 ((rows - height) `div` 2) in
       let offset_c := Z.max 0 ((cols - width) `div` 2) in
       (∀ p, p ∈ live ↔
             ∃ cell, cell ∈ normalized ∧
                     p = translate offset_r offset_c cell ∧
                     on_board rows cols p) ∧
       (height ≤ rows → width ≤ cols →
        size live = size (list_to_set cells : gset Cell))) ∧
    (∀ p, p ∈ live → on_board rows cols p) ∧
    (rows = 0 ∨ cols = 0 → live = ∅).
Proof.
  destruct (decide (cells = [])) as [->|Hne].
  { exists [], ∅. by split_and!. }
  destruct (normalize_cells_cons cells Hne) as (min_r & min_c & Hr & Hc & Hnorm).
  destruct (normalize_cells_origin cells min_r min_c Hr Hc) as [Hr0 Hc0].
  destruct (seed_pattern_cons _ _ rows cols Hne Hnorm)
    as (max_r0 & max_c0 & Hmr & Hmc & Hseed).
  eexists _, _. split_and!; [exact Hnorm|exact Hseed|..].
  - intros Hnil. done.
  - intros _. exists min_r, min_c, max_r0, max_c0.
    split; [done|]. split; [done|].
    split; [apply shift_by_translate|].
    split; [done|]. split; [done|]. cbv zeta. split.
    { intros p. apply elem_of_placed. }
    intros Hfr Hfc. rewrite placed_all.
    + rewrite shift_by_translate.
      by rewrite !size_list_to_set_fmap_inj by apply _.
    + intros [r c] Hin. split; simpl.
      * apply centred_in_range; [|done]. split.
        -- apply Hr0. by eapply elem_of_fst.
        -- apply Hmr. by eapply elem_of_fst.
      * apply centred_in_range; [|done]. split.
        -- apply Hc0. by eapply elem_of_snd.
        -- apply Hmc. by eapply elem_of_snd.
  - intros p Hp. by apply elem_of_placed in Hp as (_ & _ & _ & ?).
  - intros Hz. apply set_eq. intros p. split.
    + intros Hp. apply elem_of_placed in Hp as (_ & _ & _ & [? ?]). lia.
    + intros Hp. by apply not_elem_of_empty in Hp.
Qed.

Lemma seed_pattern_centres_witness :
  ∃ normalized live,
    normalize_cells [(3, -2); (1, 5); (3, -2)] = Some normalized ∧
    seed_pattern [(3, -2); (1, 5); (3, -2)] 10 12 = Some live ∧
    ([(3, -2); (1, 5); (3, -2)] = [] → normalized = [] ∧ live = ∅) ∧
    ([(3, -2); (1, 5); (3, -2)] ≠ [] →
     ∃ min_r min_c max_r max_c,
       is_min min_r [(3, -2); (1, 5); (3, -2)].*1 ∧ is_min min_c [(3, -2); (1, 5); (3, -2)].*2 ∧
       normalized = translate (- min_r) (- min_c) <$> [(3, -2); (1, 5); (3, -2)] ∧
       is_max max_r normalized.*1 ∧ is_max max_c normalized.*2 ∧
       let height := max_r + 1 in
       let width := max_c + 1 in
       let offset_r := Z.max 0 ((10 - height) `div` 2) in
       let offset_c := Z.max 0 ((12 - width) `div` 2) in
       (∀ p, p ∈ live ↔
             ∃ cell, cell ∈ normalized ∧
                     p = translate offset_r offset_c cell ∧
                     on_board 10 12 p) ∧
       (height ≤ 10 → width ≤ 12 →
        size live = size (list_to_set [(3, -2); (1, 5); (3, -2)] : gset Cell))) ∧
    (∀ p, p ∈ live → on_board 10 12 p) ∧
    (10 = 0 ∨ 12 = 0 → live = ∅).
Proof. exact (seed_pattern_centres [(3, -2); (1, 5); (3, -2)] 10 12). Defined.

(** * Totality of the core *)

(** C8: [normalize_cells], [seed_pattern], [step] and the fingerprint check
    always return: for every cell list and every [rows >= 0], [cols >= 0]
    the two functions that call [min] and [max] never reach the raising
    case (their result is [Some]), an empty pattern gives the empty list and
    the empty live set, and [step] and the fingerprint check, which contain
    no raising operation, produce a value from whatever was seeded. *)
Theorem core_operations_total (hash : gset Cell → Z)
    (cells : list Cell) (rows cols : Z) :
  0 ≤ rows → 0 ≤ cols →
  normalize_cells [] = Some [] ∧
  seed_pattern [] rows cols = Some ∅ ∧
  (∃ normalized, normalize_cells cells = Some normalized) ∧
  (∃ live, seed_pattern cells rows cols = Some live ∧
     ∃ next sig seen, step live rows cols = next ∧
                      Orchestrator.detect hash ∅ live = (sig, seen)).
Proof.
  intros _ _. split_and!; [done..|apply normalize_cells_total|].
  destruct (seed_pattern_total cells rows cols) as [live Hlive].
  exists live. split; [done|].
  exists (step live rows cols), (Orchestrator.detect hash ∅ live).1, (Orchestrator.detect hash ∅ live).2.
  split; [done|]. by destruct (Orchestrator.detect hash ∅ live).
Qed.

Lemma core_operations_total_witness :
  normalize_cells [] = Some [] ∧
  seed_pattern [] 24 80 = Some ∅ ∧
  (∃ normalized, normalize_cells [(0, 1); (1, 3); (2, 0)] = Some normalized) ∧
  (∃ live, seed_pattern [(0, 1); (1, 3); (2, 0)] 24 80 = Some live ∧
     ∃ next sig seen, step live 24 80 = next ∧
                      Orchestrator.detect sample_hash ∅ live = (sig, seen)).
Proof.
  apply (core_operations_total sample_hash [(0, 1); (1, 3); (2, 0)] 24 80); lia.
Defined.

(** * The transition function *)

Lemma neighbor_counts_dom (enum : list Cell) (rows cols : Z) (p : Cell) :
  p ∈ dom (neighbor_counts enum rows cols) → on_board rows cols p.
Proof.
  intros [n Hn]%elem_of_dom.
  pose proof (neighbor_counts_positive enum rows cols p n Hn) as Hpos.
  assert (dict_get (neighbor_counts enum rows cols) p 0 = n) as Hget
    by (unfold dict_get; by rewrite Hn).
  unfold neighbor_counts in Hget. rewrite dict_get_foldl in Hget.
  unfold dict_get in Hget. rewrite lookup_empty in Hget. simpl in Hget.
  destruct (decide (on_board rows cols p)); [done|lia].
Qed.

Lemma live_neighbors_on_board (live : gset Cell) (rows cols : Z) (p : Cell) :
  (∀ q, q ∈ live → on_board rows cols q) →
  live_neighbors live p =
    Z.of_nat (length (filter (λ q, on_board rows cols q ∧ q ∈ live) (moore p))).
Proof.
  intros Hin. unfold live_neighbors. do 2 f_equal.
  apply list_filter_iff. intros q. split; [|tauto].
  intros Hq. split; [by apply Hin|done].
Qed.

(** C1: for a live set whose cells all lie within [[0, rows) x [0, cols)],
    [step live rows cols] contains a position [p] exactly when [p] is in
    bounds and the number of live cells among the 8 Moore neighbours of [p]
    is 3, or is 2 with [p] itself live.  Positions out of bounds are neither
    counted (they get no entry in the neighbour dictionary, and only
    in-bounds neighbours enter a count) nor produced. *)
Theorem step_conway_rule (live : gset Cell) (rows cols : Z) :
  (∀ q, q ∈ live → on_board rows cols q) →
  (∀ p, p ∈ step live rows cols ↔
        on_board rows cols p ∧
        (live_neighbors live p = 3 ∨ (live_neighbors live p = 2 ∧ p ∈ live))) ∧
  (∀ p, live_neighbors live p =
        Z.of_nat (length (filter (λ q, on_board rows cols q ∧ q ∈ live)
                                 (moore p)))) ∧
  (∀ p, p ∈ dom (neighbor_counts (elements live) rows cols) →
        on_board rows cols p) ∧
  (∀ p, ¬ on_board rows cols p → p ∉ step live rows cols).
Proof.
  intros Hin. split_and!.
  - intros p. apply elem_of_step.
  - intros p. by apply live_neighbors_on_board.
  - intros p. apply neighbor_counts_dom.
  - intros p Hoff Hp. apply elem_of_step in Hp as [? _]. done.
Qed.

Lemma blinker_h_on_board (q : Cell) : q ∈ blinker_h → on_board 10 10 q.
Proof.
  unfold blinker_h. rewrite !elem_of_union, !elem_of_singleton.
  intros [[->| ->]| ->]; unfold on_board; simpl; lia.
Qed.

Lemma step_conway_rule_witness :
  (∀ p, p ∈ step blinker_h 10 10 ↔
        on_board 10 10 p ∧
        (live_neighbors blinker_h p = 3 ∨
         (live_neighbors blinker_h p = 2 ∧ p ∈ blinker_h))) ∧
  (∀ p, live_neighbors blinker_h p =
        Z.of_nat (length (filter (λ q, on_board 10 10 q ∧ q ∈ blinker_h)
                                 (moore p)))) ∧
  (∀ p, p ∈ dom (neighbor_counts (elements blinker_h) 10 10) →
        on_board 10 10 p) ∧
  (∀ p, ¬ on_board 10 10 p → p ∉ step blinker_h 10 10).
Proof. apply (step_conway_rule blinker_h 10 10), blinker_h_on_board. Defined.

(** C6: one step of the horizontal blinker [{(5,4),(5,5),(5,6)}] on a 10x10
    board gives exactly the vertical set [{(4,5),(5,5),(6,5)}], and a second
    step gives back exactly the horizontal set. *)
Theorem blinker_oscillates :
  step blinker_h 10 10 = blinker_v ∧
  step (step blinker_h 10 10) 10 10 = blinker_h.
Proof. split; vm_compute; reflexivity. Qed.

(** The 2x2 block is a still life. *)
Example block_is_still :
  step {[ (1, 1); (1, 2); (2, 1); (2, 2) ]} 10 10
    = {[ (1, 1); (1, 2); (2, 1); (2, 2) ]}.
Proof. vm_compute. reflexivity. Qed.

(** A single isolated cell dies. *)
Example lone_cell_dies : step {[ (4, 4) ]} 10 10 = ∅.
Proof. vm_compute. reflexivity. Qed.

Lemma collect_all_same_items (items1 items2 : list (Cell * Z))
    (live : gset Cell) :
  (∀ x, x ∈ items1 ↔ x ∈ items2) →
  collect_all items1 live = collect_all items2 live.
Proof.
  intros Hsame. apply set_eq. intros p. unfold collect_all.
  rewrite !elem_of_foldl_collect.
  split; (intros [?|(n & Hin & ?)]; [by left|right]);
    exists n; (split; [by apply Hsame|done]).
Qed.

Lemma collect_all_items (enum : list Cell) (items : list (Cell * Z))
    (live : gset Cell) (rows cols : Z) :
  items ≡ₚ map_to_list (neighbor_counts enum rows cols) →
  collect_all items live = step_via enum live rows cols.
Proof.
  intros Hperm. unfold step_via. apply collect_all_same_items.
  intros x. by rewrite Hperm.
Qed.

(** C7: [step] is deterministic and independent of the order in which the
    live set is enumerated: two runs over equal live sets, each with its own
    duplicate-free enumeration of the set, and equal [rows] and [cols],
    return equal live sets.  This holds through both loops: the first run
    may fill its dictionary in one order and the second in another, and each
    may walk [counts.items()] in any arrangement of its entries. *)
Theorem step_order_independent (enum1 enum2 : list Cell)
    (live1 live2 : gset Cell) (rows1 cols1 rows2 cols2 : Z) :
  NoDup enum1 → (∀ x, x ∈ enum1 ↔ x ∈ live1) →
  NoDup enum2 → (∀ x, x ∈ enum2 ↔ x ∈ live2) →
  live1 ≡ live2 → rows1 = rows2 → cols1 = cols2 →
  step_via enum1 live1 rows1 cols1 = step_via enum2 live2 rows2 cols2 ∧
  step live1 rows1 cols1 = step_via enum2 live2 rows2 cols2 ∧
  step live1 rows1 cols1 = step live2 rows2 cols2 ∧
  (∀ items1 items2 : list (Cell * Z),
     items1 ≡ₚ map_to_list (neighbor_counts enum1 rows1 cols1) →
     items2 ≡ₚ map_to_list (neighbor_counts enum2 rows2 cols2) →
     collect_all items1 live1 = collect_all items2 live2 ∧
     collect_all items1 live1 = step live1 rows1 cols1).
Proof.
  intros Hnd1 He1 Hnd2 He2 Hlive -> ->.
  apply leibniz_equiv in Hlive. subst live2.
  assert (step_via enum1 live1 rows2 cols2 = step_via enum2 live1 rows2 cols2)
    as H12.
  { apply set_eq. intros p. by rewrite !elem_of_step_via. }
  assert (step live1 rows2 cols2 = step_via enum1 live1 rows2 cols2) as H01.
  { apply set_eq. intros p. by rewrite elem_of_step, elem_of_step_via. }
  split_and!; [done|congruence|done|].
  intros items1 items2 Hp1 Hp2.
  rewrite (collect_all_items enum1 items1 live1 rows2 cols2 Hp1).
  rewrite (collect_all_items enum2 items2 live1 rows2 cols2 Hp2).
  split; congruence.
Qed.

Lemma step_order_independent_witness :
  step_via [(5, 4); (5, 5); (5, 6)] blinker_h 10 10
    = step_via [(5, 6); (5, 4); (5, 5)] blinker_h 10 10 ∧
  step blinker_h 10 10 = step_via [(5, 6); (5, 4); (5, 5)] blinker_h 10 10 ∧
  step blinker_h 10 10 = step blinker_h 10 10 ∧
  collect_all
    (map_to_list (neighbor_counts [(5, 4); (5, 5); (5, 6)] 10 10)) blinker_h
    = collect_all
        (reverse (map_to_list (neighbor_counts [(5, 6); (5, 4); (5, 5)] 10 10)))
        blinker_h ∧
  collect_all
    (map_to_list (neighbor_counts [(5, 4); (5, 5); (5, 6)] 10 10)) blinker_h
    = step blinker_h 10 10.
Proof.
  destruct (step_order_independent
              [(5, 4); (5, 5); (5, 6)] [(5, 6); (5, 4); (5, 5)]
              blinker_h blinker_h 10 10 10 10) as (H1 & H2 & H3 & H4).
  - apply (bool_decide_unpack _). by vm_compute.
  - intros x. unfold blinker_h.
    rewrite !elem_of_cons, elem_of_nil, !elem_of_union, !elem_of_singleton.
    tauto.
  - apply (bool_decide_unpack _). by vm_compute.
  - intros x. unfold blinker_h.
    rewrite !elem_of_cons, elem_of_nil, !elem_of_union, !elem_of_singleton.
    tauto.
  - reflexivity.
  - reflexivity.
  - reflexivity.
  - split_and!; [exact H1|exact H2|exact H3|..];
      apply (H4 (map_to_list (neighbor_counts [(5, 4); (5, 5); (5, 6)] 10 10))
                (reverse (map_to_list
                            (neighbor_counts [(5, 6); (5, 4); (5, 5)] 10 10))));
      [reflexivity|apply reverse_Permutation
      |reflexivity|apply reverse_Permutation].
Defined.

(** C10: whatever the input live set, cells outside the board included, and
    whatever [rows] and [cols], every cell of [step live rows cols] lies
    within [[0, rows) x [0, cols)]: an out-of-bounds live cell never appears
    in the output, though it still adds to the neighbour counts of in-bounds
    positions (three live cells just above the top edge give birth on the
    top row).  For [rows <= 0] or [cols <= 0] the result is empty. *)
Theorem step_stays_on_board (live : gset Cell) (rows cols : Z) :
  (∀ p, p ∈ step live rows cols → on_board rows cols p) ∧
  (∀ q, q ∈ live → ¬ on_board rows cols q → q ∉ step live rows cols) ∧
  (∀ p, p ∈ step live rows cols ↔ on_board rows cols p ∧ rule live p) ∧
  step {[ (-1, 0); (-1, 1); (-1, 2) ]} 3 3 = {[ (0, 1) ]} ∧
  (rows ≤ 0 ∨ cols ≤ 0 → step live rows cols = ∅).
Proof.
  split_and!.
  - intros p Hp. by apply elem_of_step in Hp as [? _].
  - intros q _ Hoff Hq. by apply elem_of_step in Hq as [? _].
  - intros p. apply elem_of_step.
  - vm_compute. reflexivity.
  - intros Hz. apply set_eq. intros p. split.
    + intros Hp. apply elem_of_step in Hp as [[? ?] _]. lia.
    + intros Hp. by apply not_elem_of_empty in Hp.
Qed.

Lemma step_stays_on_board_witness :
  (∀ p, p ∈ step {[ (-1, 0); (0, 0); (0, 1); (1, 0); (7, 7) ]} 2 2 →
        on_board 2 2 p) ∧
  (∀ q, q ∈ ({[ (-1, 0); (0, 0); (0, 1); (1, 0); (7, 7) ]} : gset Cell) →
        ¬ on_board 2 2 q →
        q ∉ step {[ (-1, 0); (0, 0); (0, 1); (1, 0); (7, 7) ]} 2 2) ∧
  (∀ p, p ∈ step {[ (-1, 0); (0, 0); (0, 1); (1, 0); (7, 7) ]} 2 2 ↔
        on_board 2 2 p ∧
        rule {[ (-1, 0); (0, 0); (0, 1); (1, 0); (7, 7) ]} p) ∧
  step {[ (-1, 0); (-1, 1); (-1, 2) ]} 3 3 = {[ (0, 1) ]} ∧
  (2 ≤ 0 ∨ 2 ≤ 0 → step {[ (-1, 0); (0, 0); (0, 1); (1, 0); (7, 7) ]} 2 2 = ∅).
Proof.
  exact (step_stays_on_board {[ (-1, 0); (0, 0); (0, 1); (1, 0); (7, 7) ]} 2 2).
Defined.

(** * The frame loop *)

Section FrameLoop.

Import Orchestrator.

Context (hash : gset Cell → Z).

Lemma detect_terminal (seen : gset Z) (live : gset Cell) :
  hash live ∈ seen ∨ live = ∅ → detect hash seen live = (Terminal, seen).
Proof.
  intros H. unfold detect.
  destruct (bool_decide (hash live ∈ seen) || bool_decide (live = ∅)) eqn:Hb;
    [done|].
  apply orb_false_iff in Hb as [Hs He].
  apply bool_decide_eq_false in Hs, He. tauto.
Qed.

Lemma detect_continue (seen : gset Z) (live : gset Cell) :
  hash live ∉ seen → live ≠ ∅ →
  detect hash seen live = (Continue, {[ hash live ]} ∪ seen).
Proof.
  intros Hs He. unfold detect.
  by rewrite !bool_decide_eq_false_2.
Qed.

Lemma detect_continue_inv (seen seen' : gset Z) (live : gset Cell) :
  detect hash seen live = (Continue, seen') →
  (hash live ∉ seen) ∧ live ≠ ∅ ∧ seen' = {[ hash live ]} ∪ seen.
Proof.
  unfold detect.
  destruct (bool_decide (hash live ∈ seen) || bool_decide (live = ∅)) eqn:Hb;
    [done|].
  apply orb_false_iff in Hb as [Hs He].
  apply bool_decide_eq_false in Hs, He. by intros [= <-].
Qed.

(** C3: if the fingerprint of the current live set is already in the
    history, or the live set is empty, the detector signals terminal and
    hands the history back as it was, nothing added; otherwise it adds the
    fingerprint and signals continue.  A live set the detector has let
    through is terminal when submitted again to the grown history, and
    continues again once the history is cleared. *)
Theorem detector_signals (seen : gset Z) (live : gset Cell) :
  (hash live ∈ seen ∨ live = ∅ → detect hash seen live = (Terminal, seen)) ∧
  (hash live ∉ seen → live ≠ ∅ →
   detect hash seen live = (Continue, {[ hash live ]} ∪ seen)) ∧
  (∀ seen', detect hash seen live = (Continue, seen') →
     hash live ∈ seen' ∧
     detect hash seen' live = (Terminal, seen') ∧
     detect hash ∅ live = (Continue, {[ hash live ]})) ∧
  (hash live ∈ seen → live ≠ ∅ →
   detect hash ∅ live = (Continue, {[ hash live ]})).
Proof.
  assert (live ≠ ∅ → detect hash ∅ live = (Continue, {[ hash live ]})) as Hclr.
  { intros He. rewrite detect_continue; [|apply not_elem_of_empty|done].
    by rewrite (right_id_L ∅ (∪)). }
  split_and!.
  - apply detect_terminal.
  - apply detect_continue.
  - intros seen' (Hs & He & ->)%detect_continue_inv.
    assert (hash live ∈ ({[ hash live ]} ∪ seen : gset Z)) as Hin
      by (apply elem_of_union_l, elem_of_singleton; done).
    split_and!; [done|apply detect_terminal; by left|by apply Hclr].
  - intros _. apply Hclr.
Qed.

Lemma on_resize_same (st : state) : on_resize st (rows st, cols st) = Some st.
Proof.
  unfold on_resize.
  by rewrite (bool_decide_eq_false_2 (_ ≠ _)) by (intros H; by apply H).
Qed.

Lemma next_pattern_inv (st st1 : state) :
  next_pattern st = Some st1 →
  rows st1 = rows st ∧ cols st1 = cols st ∧ seen_states st1 = ∅ ∧
  pattern_index st1 = ((pattern_index st + 1) `mod` length patterns)%nat ∧
  reseed (pattern_index st1) (rows st) (cols st) = Some (live st1).
Proof.
  unfold next_pattern.
  destruct (reseed _ (rows st) (cols st)) as [seed|] eqn:Hseed; [|done].
  simpl. by intros [= <-].
Qed.

(** A frame that sees the "next pattern" key, with the terminal size
    unchanged and a non-empty new seed: the seed goes through the cycle
    check and [step] within the same frame. *)
Lemma run_frame_next_key (st st1 : state) (key : Z) :
  key = ord "n" ∨ key = ord "N" →
  next_pattern st = Some st1 → live st1 ≠ ∅ →
  run_frame hash st (rows st, cols st) key =
    Some (live st,
          Next (State (pattern_index st1) (rows st) (cols st)
                  (step (live st1) (rows st) (cols st))
                  {[ hash (live st1) ]})).
Proof.
  intros Hkey Hnext Hne.
  destruct (next_pattern_inv _ _ Hnext) as (Hr & Hc & Hs & _ & _).
  unfold run_frame. rewrite on_resize_same. simpl.
  assert (bool_decide (key = ord "q") || bool_decide (key = ord "Q") = false)
    as -> by (destruct Hkey as [-> | ->]; done).
  assert (bool_decide (key = ord "n") || bool_decide (key = ord "N") = true)
    as -> by (destruct Hkey as [-> | ->]; done).
  rewrite Hnext. simpl. rewrite Hs, Hr, Hc.
  rewrite detect_continue; [|apply not_elem_of_empty|done].
  by rewrite (right_id_L ∅ (∪)).
Qed.

(** A frame with no key of interest and the terminal size unchanged:
    draw, check, then reseed or step. *)
Lemma run_frame_idle (st : state) (key : Z) :
  key ≠ ord "q" → key ≠ ord "Q" → key ≠ ord "n" → key ≠ ord "N" →
  run_frame hash st (rows st, cols st) key =
    match detect hash (seen_states st) (live st) with
    | (Terminal, _) => st' ← next_pattern st; Some (live st, Next st')
    | (Continue, seen') =>
        Some (live st,
              Next (State (pattern_index st) (rows st) (cols st)
                      (step (live st) (rows st) (cols st)) seen'))
    end.
Proof.
  intros Hq HQ Hn HN. unfold run_frame. rewrite on_resize_same.
  cbn [mbind option_bind].
  by rewrite !(bool_decide_eq_false_2 (key = _)) by done.
Qed.

(** The terminal branch runs the same three statements and leaves the
    frame at once: the new seed is the live set of the next frame. *)
Lemma run_frame_terminal (st st1 : state) (key : Z) :
  key ≠ ord "q" → key ≠ ord "Q" → key ≠ ord "n" → key ≠ ord "N" →
  hash (live st) ∈ seen_states st ∨ live st = ∅ →
  next_pattern st = Some st1 →
  run_frame hash st (rows st, cols st) key = Some (live st, Next st1) ∧
  reseed (pattern_index st1) (rows st) (cols st) = Some (live st1) ∧
  seen_states st1 = ∅.
Proof.
  intros Hq HQ Hn HN Hterm Hnext.
  rewrite run_frame_idle, detect_terminal, Hnext by done.
  destruct (next_pattern_inv _ _ Hnext) as (_ & _ & ? & _ & ?). done.
Qed.

Lemma acorn_reseed : reseed 2 24 80 = Some Acorn.seed.
Proof. vm_compute. reflexivity. Qed.

Lemma acorn_step : step Acorn.seed 24 80 = Acorn.next.
Proof. vm_compute. reflexivity. Qed.

Lemma acorn_moves : Acorn.next ≠ Acorn.seed.
Proof. intros H. apply (f_equal size) in H. vm_compute in H. discriminate. Qed.

(** C2, evaluated on the program: on a 24x80 terminal with pattern 1
    running, a frame that reads the key [n] moves to pattern 2 (Acorn) and
    reseeds, but then runs the cycle check and [step] on the fresh seed in
    the same frame: the frame ends with the second generation as the live
    set and the seed's fingerprint in the history, and the following frame
    draws the second generation, so the seed itself is never drawn. *)
Theorem next_key_steps_the_seed (live0 : gset Cell) (seen0 : gset Z) :
  reseed 2 24 80 = Some Acorn.seed ∧
  step Acorn.seed 24 80 = Acorn.next ∧
  Acorn.next ≠ Acorn.seed ∧
  run_frame hash (State 1 24 80 live0 seen0) (24, 80) (ord "n") =
    Some (live0, Next (State 2 24 80 Acorn.next {[ hash Acorn.seed ]})) ∧
  ∃ fl, run_frame hash (State 2 24 80 Acorn.next {[ hash Acorn.seed ]})
          (24, 80) (-1) = Some (Acorn.next, fl).
Proof.
  split_and!; [apply acorn_reseed|apply acorn_step|apply acorn_moves|..].
  - rewrite <- acorn_step.
    apply (run_frame_next_key (State 1 24 80 live0 seen0)
                              (State 2 24 80 Acorn.seed ∅)).
    + by left.
    + vm_compute. reflexivity.
    + intros H. apply (f_equal size) in H. vm_compute in H. discriminate.
  - rewrite (run_frame_idle (State 2 24 80 Acorn.next {[ hash Acorn.seed ]}))
      by done.
    cbn [seen_states live].
    destruct (detect hash {[ hash Acorn.seed ]} Acorn.next) as [[|] seen'].
    + destruct (next_pattern (State 2 24 80 Acorn.next {[ hash Acorn.seed ]}))
        as [st'|] eqn:Hnext; [by eexists|].
      vm_compute in Hnext. discriminate.
    + by eexists.
Qed.

End FrameLoop.

Lemma detector_signals_witness :
  (sample_hash blinker_h ∈ (∅ : gset Z) ∨ blinker_h = ∅ →
   Orchestrator.detect sample_hash ∅ blinker_h = (Orchestrator.Terminal, ∅)) ∧
  (sample_hash blinker_h ∉ (∅ : gset Z) → blinker_h ≠ ∅ →
   Orchestrator.detect sample_hash ∅ blinker_h =
     (Orchestrator.Continue, {[ sample_hash blinker_h ]} ∪ ∅)) ∧
  (∀ seen', Orchestrator.detect sample_hash ∅ blinker_h
              = (Orchestrator.Continue, seen') →
     sample_hash blinker_h ∈ seen' ∧
     Orchestrator.detect sample_hash seen' blinker_h
       = (Orchestrator.Terminal, seen') ∧
     Orchestrator.detect sample_hash ∅ blinker_h =
       (Orchestrator.Continue, {[ sample_hash blinker_h ]})) ∧
  (sample_hash blinker_h ∈ (∅ : gset Z) → blinker_h ≠ ∅ →
   Orchestrator.detect sample_hash ∅ blinker_h =
     (Orchestrator.Continue, {[ sample_hash blinker_h ]})).
Proof. exact (detector_signals sample_hash ∅ blinker_h). Defined.

(** * Reading and drawing patterns *)

(** ** parse_pattern *)

Lemma parse_line_acc (ch : ascii) (r c : Z) (line : string) (acc : list Cell) :
  parse_line ch r c line acc = acc ++ parse_line ch r c line [].
Proof.
  revert c acc. induction line as [|a line IH]; intros c acc; simpl.
  - by rewrite app_nil_r.
  - rewrite IH. rewrite (IH _ (if bool_decide (a = ch) then _ else _)).
    destruct (bool_decide (a = ch)); simpl; [|done].
    by rewrite <- app_assoc.
Qed.

Lemma parse_lines_acc (ch : ascii) (r : Z) (lines : list string)
    (acc : list Cell) :
  parse_lines ch r lines acc = acc ++ parse_lines ch r lines [].
Proof.
  revert r acc. induction lines as [|line lines IH]; intros r acc; simpl.
  - by rewrite app_nil_r.
  - rewrite IH, (IH _ (parse_line _ _ _ _ [])), parse_line_acc.
    by rewrite <- app_assoc.
Qed.

Lemma elem_of_parse_line (ch : ascii) (r c0 : Z) (line : string) (p : Cell) :
  p ∈ parse_line ch r c0 line [] ↔
  p.1 = r ∧ c0 ≤ p.2 ∧ String.get (Z.to_nat (p.2 - c0)) line = Some ch.
Proof.
  destruct p as [r' c']. simpl.
  revert c0. induction line as [|a line IH]; intros c0; simpl.
  - rewrite elem_of_nil. split; [done|]. by intros (_ & _ & ?).
  - rewrite parse_line_acc, elem_of_app, IH.
    assert ((r', c') ∈ (if bool_decide (a = ch) then [(r, c0)] else [])
            ↔ r' = r ∧ c' = c0 ∧ a = ch) as ->.
    { case_bool_decide.
      - rewrite list_elem_of_singleton. split; [by intros [= -> ->]|].
        by intros (-> & -> & _).
      - rewrite elem_of_nil. split; [done|]. by intros (_ & _ & ?). }
    destruct (decide (c' = c0)) as [->|Hne].
    + rewrite Z.sub_diag. simpl. split.
      * intros [(-> & _ & ->)|(_ & ? & _)]; [done|lia].
      * intros (-> & _ & [= ->]). by left.
    + destruct (decide (c0 < c')) as [Hlt|Hge].
      * replace (Z.to_nat (c' - c0)) with (S (Z.to_nat (c' - (c0 + 1)))) by lia.
        split.
        -- intros [(_ & ? & _)|(-> & ? & ?)]; [done|].
           split_and!; [done|lia|done].
        -- intros (-> & ? & ?). right. split_and!; [done|lia|done].
      * split; [intros [(_ & ? & _)|(_ & ? & _)]|intros (_ & ? & _)]; lia.
Qed.

Lemma elem_of_parse_lines (ch : ascii) (r0 : Z) (lines : list string)
    (p : Cell) :
  p ∈ parse_lines ch r0 lines [] ↔
  r0 ≤ p.1 ∧ 0 ≤ p.2 ∧
  ∃ line, lines !! Z.to_nat (p.1 - r0) = Some line ∧
          String.get (Z.to_nat p.2) line = Some ch.
Proof.
  revert r0. induction lines as [|line lines IH]; intros r0; simpl.
  - rewrite elem_of_nil. split; [done|]. by intros (_ & _ & ? & ? & _).
  - rewrite parse_lines_acc, elem_of_app, IH, elem_of_parse_line.
    rewrite Z.sub_0_r. split.
    + intros [(-> & ? & Hget)|(? & ? & l & Hl & Hget)].
      * split_and!; [lia|done|]. exists line. by rewrite Z.sub_diag.
      * split_and!; [lia|done|]. exists l. split; [|done].
        replace (Z.to_nat (p.1 - r0)) with (S (Z.to_nat (p.1 - (r0 + 1))))
          by lia.
        done.
    + intros (? & ? & l & Hl & Hget).
      destruct (decide (p.1 = r0)) as [Heq|Hne].
      * left. rewrite Heq, Z.sub_diag in Hl. simpl in Hl. by simplify_eq.
      * right. split_and!; [lia|done|]. exists l. split; [|done].
        replace (Z.to_nat (p.1 - r0)) with (S (Z.to_nat (p.1 - (r0 + 1))))
          in Hl by lia.
        done.
Qed.

Lemma elem_of_parse_pattern (lines : list string) (ch : ascii) (r c : Z) :
  (r, c) ∈ parse_pattern lines ch ↔ char_at lines r c = Some ch.
Proof.
  unfold parse_pattern, char_at. rewrite elem_of_parse_lines. simpl.
  rewrite Z.sub_0_r. split.
  - intros (? & ? & line & Hl & Hget).
    rewrite !bool_decide_eq_true_2 by done. simpl. by rewrite Hl.
  - case_bool_decide; [|done]. case_bool_decide; [|done]. simpl.
    destruct (lines !! Z.to_nat r) as [line|] eqn:Hl; [|done]. simpl.
    intros Hget. split_and!; [done..|]. by exists line.
Qed.

(** X1: [parse_pattern] returns exactly the positions of the live character:
    [(r, c)] is in the result if and only if row [r] of the text has the
    live character at column [c] (rows and columns counted from 0).  Short
    lines and characters other than the live one give no cell, and every
    cell has a row below the number of lines and no negative coordinate. *)
Theorem parse_pattern_cells (lines : list string) (live_char : ascii) :
  (∀ r c, (r, c) ∈ parse_pattern lines live_char ↔
          char_at lines r c = Some live_char) ∧
  (∀ r c, (r, c) ∈ parse_pattern lines live_char →
          0 ≤ r < Z.of_nat (length lines) ∧ 0 ≤ c).
Proof.
  split; [intros r c; apply elem_of_parse_pattern|].
  intros r c Hin. apply elem_of_parse_pattern in Hin. unfold char_at in Hin.
  destruct (bool_decide (0 ≤ r)) eqn:Hr; [|done].
  destruct (bool_decide (0 ≤ c)) eqn:Hc; [|done].
  apply bool_decide_eq_true in Hr, Hc. simpl in Hin.
  destruct (lines !! Z.to_nat r) as [line|] eqn:Hl; [|done].
  apply lookup_lt_Some in Hl. lia.
Qed.

Lemma parse_pattern_cells_witness :
  (∀ r c, (r, c) ∈ parse_pattern [".O"; "O."]%string "O" ↔
          char_at [".O"; "O."]%string r c = Some "O"%char) ∧
  (∀ r c, (r, c) ∈ parse_pattern [".O"; "O."]%string "O" →
          0 ≤ r < Z.of_nat (length [".O"; "O."]%string) ∧ 0 ≤ c).
Proof. exact (parse_pattern_cells [".O"; "O."]%string "O"). Defined.

Lemma parse_line_sorted (ch : ascii) (r c0 : Z) (line : string) :
  StronglySorted row_major (parse_line ch r c0 line []).
Proof.
  revert c0. induction line as [|a line IH]; intros c0; simpl.
  - constructor.
  - rewrite parse_line_acc. apply StronglySorted_app_2; [|..|apply IH].
    + intros p q Hp Hq. apply elem_of_parse_line in Hq as (Hq1 & Hq2 & _).
      case_bool_decide; [|by apply elem_of_nil in Hp].
      apply list_elem_of_singleton in Hp as ->. right. simpl. lia.
    + case_bool_decide; repeat constructor.
Qed.

Lemma parse_lines_sorted (ch : ascii) (r0 : Z) (lines : list string) :
  StronglySorted row_major (parse_lines ch r0 lines []).
Proof.
  revert r0. induction lines as [|line lines IH]; intros r0; simpl.
  - constructor.
  - rewrite parse_lines_acc.
    apply StronglySorted_app_2; [|apply parse_line_sorted|apply IH].
    intros p q Hp Hq. apply elem_of_parse_line in Hp as (Hp & _).
    apply elem_of_parse_lines in Hq as (Hq & _). left. lia.
Qed.

Lemma row_major_NoDup (cells : list Cell) :
  StronglySorted row_major cells → NoDup cells.
Proof.
  induction 1 as [|p cells Hs IH Hall]; constructor; [|done].
  intros Hin. rewrite Forall_forall in Hall.
  destruct (Hall p Hin) as [?|[_ ?]]; lia.
Qed.

(** X2: [parse_pattern] lists the cells in row-major order (by row, and by
    column within a row), strictly increasing, so no cell is listed twice
    and the length of the list is the number of distinct cells. *)
Theorem parse_pattern_row_major (lines : list string) (live_char : ascii) :
  StronglySorted row_major (parse_pattern lines live_char) ∧
  NoDup (parse_pattern lines live_char) ∧
  size (list_to_set (parse_pattern lines live_char) : gset Cell)
    = length (parse_pattern lines live_char).
Proof.
  pose proof (parse_lines_sorted live_char 0 lines) as Hs.
  pose proof (row_major_NoDup _ Hs) as Hnd.
  split_and!; [done..|]. by apply size_list_to_set.
Qed.

(** ** draw *)

Lemma repeat_char_replicate (ch : ascii) (n : nat) :
  repeat_char ch n = String.string_of_list_ascii (replicate n ch).
Proof. induction n as [|n IH]; simpl; [done|]. by rewrite IH. Qed.

Lemma string_get_of_list (l : list ascii) (i : nat) :
  String.get i (String.string_of_list_ascii l) = l !! i.
Proof.
  revert i. induction l as [|a l IH]; intros i; simpl; [done|].
  destruct i; simpl; [done|]. apply IH.
Qed.

Lemma string_length_of_list (l : list ascii) :
  String.length (String.string_of_list_ascii l) = length l.
Proof. induction l as [|a l IH]; simpl; [done|]. by rewrite IH. Qed.

(** The columns found in row [r], in enumeration order. *)
Lemma lookup_foldl_bucket (enum : list Cell) (m : gmap Z (list Z)) (r : Z) :
  foldl bucket m enum !! r =
    match filter (λ cell : Cell, cell.1 = r) enum with
    | [] => m !! r
    | found => Some (default [] (m !! r) ++ found.*2)
    end.
Proof.
  revert m. induction enum as [|[r' c'] enum IH]; intros m; [done|].
  simpl foldl. rewrite IH, filter_cons. simpl.
  destruct (decide (r' = r)) as [->|Hne].
  - rewrite lookup_insert_eq. simpl.
    destruct (filter _ enum) as [|x found]; simpl; [done|].
    by rewrite <- app_assoc.
  - by rewrite lookup_insert_ne.
Qed.

Lemma length_foldl_mark (cols : Z) (cs : list Z) (row : list ascii) :
  length (foldl (mark cols) row cs) = length row.
Proof.
  revert row. induction cs as [|c cs IH]; intros row; simpl; [done|].
  rewrite IH. unfold mark.
  destruct (_ && _); [apply length_insert|done].
Qed.

Lemma lookup_foldl_mark (cols : Z) (cs : list Z) (row : list ascii) (i : nat) :
  length row = Z.to_nat cols → (i < length row)%nat →
  foldl (mark cols) row cs !! i =
    if bool_decide (Z.of_nat i ∈ cs) then Some "O"%char else row !! i.
Proof.
  revert row. induction cs as [|c cs IH]; intros row Hlen Hi; simpl.
  - done.
  - assert (length (mark cols row c) = length row) as Hlen'.
    { unfold mark. destruct (_ && _); [apply length_insert|done]. }
    rewrite IH by lia.
    destruct (decide (Z.of_nat i ∈ cs)) as [Hin|Hnin].
    + rewrite !bool_decide_eq_true_2; [done|by right|done].
    + rewrite (bool_decide_eq_false_2 _ Hnin). unfold mark.
      destruct (decide (Z.of_nat i = c)) as [<-|Hne].
      * rewrite (bool_decide_eq_true_2 (_ ∈ _)) by by left.
        rewrite !bool_decide_eq_true_2 by lia. simpl.
        rewrite Nat2Z.id. by apply list_lookup_insert_eq.
      * rewrite (bool_decide_eq_false_2 (_ ∈ _))
          by (rewrite elem_of_cons; intros [?|?]; done).
        destruct (_ && _) eqn:Hb; [|done].
        apply andb_true_iff in Hb as [Hb1 Hb2].
        apply bool_decide_eq_true in Hb1, Hb2.
        apply list_lookup_insert_ne. lia.
Qed.

Lemma elem_of_bucket_row (enum : list Cell) (r c : Z) :
  c ∈ (filter (λ cell : Cell, cell.1 = r) enum).*2 ↔ (r, c) ∈ enum.
Proof.
  rewrite list_elem_of_fmap. split.
  - intros ([r' c'] & -> & Hin). apply list_elem_of_filter in Hin as [Hr Hin].
    simpl in Hr. by subst r'.
  - intros Hin. exists (r, c). split; [done|]. by apply list_elem_of_filter.
Qed.

Lemma mark_renders (live : gset Cell) (cols r : Z) (cs : list Z) :
  (∀ c, c ∈ cs ↔ (r, c) ∈ live) →
  String.string_of_list_ascii
    (foldl (mark cols) (replicate (Z.to_nat cols) " "%char) cs)
    = render_line live cols r.
Proof.
  intros Hcs. unfold render_line. f_equal. apply list_eq. intros i.
  destruct (decide (i < Z.to_nat cols)%nat) as [Hi|Hi].
  - rewrite lookup_foldl_mark by (rewrite ?length_replicate; done).
    rewrite list_lookup_fmap, lookup_seqZ_lt by lia. simpl.
    rewrite lookup_replicate_2 by done.
    rewrite (bool_decide_ext _ _ (Hcs (Z.of_nat i))).
    by destruct (bool_decide _).
  - rewrite !lookup_ge_None_2; [done|..].
    + rewrite length_fmap, length_seqZ. lia.
    + rewrite length_foldl_mark, length_replicate. lia.
Qed.

Lemma draw_line_renders (enum : list Cell) (live : gset Cell) (cols r : Z) :
  (∀ x, x ∈ enum ↔ x ∈ live) →
  draw_line (foldl bucket ∅ enum) cols r = render_line live cols r.
Proof.
  intros Henum. unfold draw_line.
  rewrite lookup_foldl_bucket, lookup_empty.
  pose proof (elem_of_bucket_row enum r) as Hrow.
  destruct (filter _ enum) as [|x found].
  - rewrite repeat_char_replicate.
    apply (mark_renders live cols r []). intros c.
    rewrite <- Henum, <- Hrow. done.
  - cbn [default app]. apply mark_renders. intros c.
    by rewrite <- Henum, <- Hrow.
Qed.

(** X3: whatever order the live set is enumerated in, [draw] writes screen
    rows [0 .. rows-1] in order, and the text of row [r] is the picture of
    the live set on that row: ['O'] at the columns [c < cols] with [(r, c)]
    live and a space elsewhere. *)
Theorem draw_renders (enum : list Cell) (live : gset Cell) (rows cols : Z) :
  (∀ x, x ∈ enum ↔ x ∈ live) →
  draw_via enum rows cols
    = (λ r, (r, render_line live cols r)) <$> seqZ 0 rows ∧
  draw live rows cols = draw_via enum rows cols.
Proof.
  intros Henum.
  assert (∀ enum', (∀ x, x ∈ enum' ↔ x ∈ live) →
            draw_via enum' rows cols
              = (λ r, (r, render_line live cols r)) <$> seqZ 0 rows) as Hany.
  { intros enum' He. unfold draw_via. apply list_fmap_ext.
    intros i r _. f_equal. by apply draw_line_renders. }
  split; [by apply Hany|].
  unfold draw. rewrite !Hany; [done..|]. intros x. apply elem_of_elements.
Qed.

Lemma draw_renders_witness :
  draw_via [(0, 1); (1, 0); (7, 7); (0, 0)] 2 3
    = (λ r, (r, render_line {[ (0, 0); (0, 1); (1, 0); (7, 7) ]} 3 r))
        <$> seqZ 0 2 ∧
  draw {[ (0, 0); (0, 1); (1, 0); (7, 7) ]} 2 3
    = draw_via [(0, 1); (1, 0); (7, 7); (0, 0)] 2 3.
Proof.
  apply (draw_renders [(0, 1); (1, 0); (7, 7); (0, 0)]
                      {[ (0, 0); (0, 1); (1, 0); (7, 7) ]} 2 3).
  intros x.
  rewrite !elem_of_cons, elem_of_nil, !elem_of_union, !elem_of_singleton.
  tauto.
Defined.

Lemma draw_closed_form (live : gset Cell) (rows cols : Z) :
  draw live rows cols = (λ r, (r, render_line live cols r)) <$> seqZ 0 rows.
Proof.
  unfold draw, draw_via. apply list_fmap_ext. intros i r _. f_equal.
  apply draw_line_renders. intros x. apply elem_of_elements.
Qed.

Lemma render_line_get (live : gset Cell) (cols r c : Z) :
  0 ≤ c →
  String.get (Z.to_nat c) (render_line live cols r) =
    if bool_decide (c < cols)
    then Some (if bool_decide ((r, c) ∈ live) then "O" else " ")%char
    else None.
Proof.
  intros Hc. unfold render_line. rewrite string_get_of_list, list_lookup_fmap.
  case_bool_decide.
  - rewrite lookup_seqZ_lt by lia. simpl. by rewrite Z2Nat.id by done.
  - by rewrite lookup_seqZ_ge by lia.
Qed.

(** X4: [draw] writes exactly [rows] lines (none if [rows <= 0]), each
    exactly [cols] characters long, and for every position [(r, c)] of the
    board the character at column [c] of line [r] is ['O'] if the cell is
    live and a space if it is not. *)
Theorem draw_pixels (live : gset Cell) (rows cols : Z) :
  length (draw live rows cols) = Z.to_nat rows ∧
  (∀ r line, (r, line) ∈ draw live rows cols →
     0 ≤ r < rows ∧ String.length line = Z.to_nat cols) ∧
  (∀ r c, on_board rows cols (r, c) →
     ∃ line, draw live rows cols !! Z.to_nat r = Some (r, line) ∧
             String.get (Z.to_nat c) line =
               Some (if bool_decide ((r, c) ∈ live) then "O" else " ")%char).
Proof.
  rewrite draw_closed_form. split_and!.
  - by rewrite length_fmap, length_seqZ.
  - intros r line Hin. apply list_elem_of_fmap in Hin as (r' & [= -> ->] & Hr).
    apply elem_of_seqZ in Hr. split; [lia|].
    unfold render_line.
    by rewrite string_length_of_list, length_fmap, length_seqZ.
  - intros r c [[? ?] [? ?]]. simpl in *. eexists. split.
    + rewrite list_lookup_fmap, lookup_seqZ_lt by lia. simpl.
      by rewrite Z2Nat.id by done.
    + rewrite render_line_get by done. by rewrite bool_decide_eq_true_2.
Qed.

Lemma draw_pixels_witness :
  length (draw blinker_h 10 10) = Z.to_nat 10 ∧
  (∀ r line, (r, line) ∈ draw blinker_h 10 10 →
     0 ≤ r < 10 ∧ String.length line = Z.to_nat 10) ∧
  (∀ r c, on_board 10 10 (r, c) →
     ∃ line, draw blinker_h 10 10 !! Z.to_nat r = Some (r, line) ∧
             String.get (Z.to_nat c) line =
               Some (if bool_decide ((r, c) ∈ blinker_h) then "O" else " ")%char).
Proof. exact (draw_pixels blinker_h 10 10). Defined.

(** X5: reading back what [draw] wrote, with ['O'] as the live character,
    gives each live cell that lies on the board exactly once and nothing
    else; live cells off the board are not drawn. *)
Theorem parse_draw_round_trip (live : gset Cell) (rows cols : Z) :
  NoDup (parse_pattern (draw live rows cols).*2 "O") ∧
  ∀ p, p ∈ parse_pattern (draw live rows cols).*2 "O" ↔
       p ∈ live ∧ on_board rows cols p.
Proof.
  split; [apply row_major_NoDup, parse_lines_sorted|].
  intros [r c]. rewrite elem_of_parse_pattern. unfold char_at, on_board. simpl.
  rewrite draw_closed_form, <- list_fmap_compose.
  destruct (decide (0 ≤ r)) as [Hr|Hr];
    [|rewrite (bool_decide_eq_false_2 (0 ≤ r)) by done; simpl; split;
      [done|lia]].
  destruct (decide (0 ≤ c)) as [Hc|Hc];
    [|rewrite (bool_decide_eq_false_2 (0 ≤ c)) by done;
      rewrite andb_false_r; split; [done|lia]].
  rewrite !bool_decide_eq_true_2 by done. simpl.
  rewrite list_lookup_fmap.
  destruct (decide (r < rows)) as [Hr'|Hr'].
  - rewrite lookup_seqZ_lt by lia. simpl. rewrite Z2Nat.id by done.
    rewrite render_line_get by done.
    case_bool_decide as Hc'; [|split; [done|lia]].
    case_bool_decide as Hin.
    + split; [intros _; split_and!; [done|lia..]|done].
    + split; [discriminate|]. intros [? _]. done.
  - rewrite lookup_seqZ_ge by lia. simpl. split; [done|lia].
Qed.

(** * More on the transition function *)

Lemma elem_of_moore (p q : Cell) :
  q ∈ moore p ↔
  -1 ≤ q.1 - p.1 ≤ 1 ∧ -1 ≤ q.2 - p.2 ≤ 1 ∧ (q.1 ≠ p.1 ∨ q.2 ≠ p.2).
Proof.
  destruct p as [pr pc], q as [qr qc]. unfold moore. simpl.
  rewrite !elem_of_cons, elem_of_nil. split.
  - intros H. decompose [or] H; simplify_eq; lia.
  - intros (Hr & Hc & Hne).
    assert (qr = pr - 1 ∨ qr = pr ∨ qr = pr + 1) as [-> | [-> | ->]] by lia;
    assert (qc = pc - 1 ∨ qc = pc ∨ qc = pc + 1) as [-> | [-> | ->]] by lia;
      try (exfalso; lia); tauto.
Qed.

Lemma length_moore (p : Cell) : length (moore p) = 8%nat.
Proof. by destruct p. Qed.

Lemma live_neighbors_range (live : gset Cell) (p : Cell) :
  0 ≤ live_neighbors live p ≤ 8.
Proof.
  unfold live_neighbors.
  pose proof (length_filter (λ q, q ∈ live) (moore p)) as Hle.
  rewrite length_moore in Hle. lia.
Qed.

Lemma live_neighbors_pos (live : gset Cell) (p : Cell) :
  1 ≤ live_neighbors live p ↔ ∃ q, q ∈ live ∧ q ∈ moore p.
Proof.
  unfold live_neighbors. split.
  - destruct (filter (λ q, q ∈ live) (moore p)) as [|q l] eqn:Hf;
      [simpl; lia|].
    intros _. exists q.
    assert (q ∈ filter (λ q, q ∈ live) (moore p)) as Hq by (rewrite Hf; by left).
    by apply list_elem_of_filter in Hq.
  - intros (q & Hq & Hm).
    assert (q ∈ filter (λ q, q ∈ live) (moore p)) as Hin
      by by apply list_elem_of_filter.
    destruct (filter (λ q, q ∈ live) (moore p));
      [by apply elem_of_nil in Hin|simpl; lia].
Qed.

Lemma live_neighbors_le_others (live : gset Cell) (p : Cell) :
  (Z.to_nat (live_neighbors live p) ≤ size (live ∖ {[ p ]}))%nat.
Proof.
  unfold live_neighbors. rewrite Nat2Z.id.
  apply submseteq_length, NoDup_submseteq.
  - apply NoDup_filter, moore_NoDup.
  - intros q [Hq Hm]%list_elem_of_filter.
    apply elem_of_elements, elem_of_difference. split; [done|].
    rewrite elem_of_singleton. intros ->.
    apply elem_of_moore in Hm. lia.
Qed.

(** X6: the neighbour dictionary built by [step] has an entry exactly for
    the positions on the board that have at least one live neighbour, and
    the stored value is the number of live neighbours, between 1 and 8. *)
Theorem neighbor_counts_entries (live : gset Cell) (rows cols : Z)
    (p : Cell) (n : Z) :
  neighbor_counts (elements live) rows cols !! p = Some n ↔
  on_board rows cols p ∧ n = live_neighbors live p ∧ 1 ≤ n ≤ 8 ∧
  ∃ q, q ∈ live ∧ q ∈ moore p.
Proof.
  rewrite (neighbor_counts_lookup (elements live) live);
    [|apply NoDup_elements|intros x; apply elem_of_elements].
  pose proof (live_neighbors_range live p).
  pose proof (live_neighbors_pos live p) as Hpos. split.
  - intros (? & <- & ?). split_and!; [done..|lia|lia|by apply Hpos].
  - intros (? & -> & ? & _). split_and!; [done..|lia].
Qed.

(** X7: a population of fewer than three cells dies out in one step,
    wherever the cells are and whatever the board; and every cell of a next
    generation has at least two live neighbours in the current one. *)
Theorem step_needs_three (live : gset Cell) (rows cols : Z) :
  ((size live < 3)%nat → step live rows cols = ∅) ∧
  (∀ p, p ∈ step live rows cols → 2 ≤ live_neighbors live p ≤ 3) ∧
  (size (step live rows cols) ≠ 0%nat → (3 ≤ size live)%nat).
Proof.
  assert (∀ p, p ∈ step live rows cols → (3 ≤ size live)%nat) as Hthree.
  { intros p [_ Hrule]%elem_of_step.
    pose proof (live_neighbors_le_others live p) as Hle.
    assert (size (live ∖ {[ p ]}) ≤ size live)%nat as Hsub
      by (apply subseteq_size, subseteq_difference_l; done).
    destruct Hrule as [H3|[H2 Hp]]; [lia|].
    rewrite size_difference, size_singleton in Hle
      by (by apply singleton_subseteq_l).
    assert (size live ≠ 0)%nat.
    { intros H0. apply size_empty_inv in H0. apply leibniz_equiv in H0.
      rewrite H0 in Hp. by apply not_elem_of_empty in Hp. }
    lia. }
  split_and!.
  - intros Hsz. apply set_eq. intros p. split.
    + intros Hp. specialize (Hthree p Hp). lia.
    + intros Hp. by apply not_elem_of_empty in Hp.
  - intros p [_ [?|[? _]]]%elem_of_step; lia.
  - intros Hne. apply size_non_empty_iff in Hne.
    apply set_choose in Hne as [p Hp]. by apply (Hthree p).
Qed.

Lemma step_needs_three_witness :
  ((size ({[ (0, 0); (0, 1) ]}%Z : gset Cell) < 3)%nat →
   step {[ (0, 0); (0, 1) ]} 5 5 = ∅) ∧
  (∀ p, p ∈ step {[ (0, 0); (0, 1) ]} 5 5 →
        2 ≤ live_neighbors {[ (0, 0); (0, 1) ]} p ≤ 3) ∧
  (size (step {[ (0, 0); (0, 1) ]} 5 5) ≠ 0%nat →
   (3 ≤ size ({[ (0, 0); (0, 1) ]}%Z : gset Cell))%nat).
Proof. exact (step_needs_three {[ (0, 0); (0, 1) ]} 5 5). Defined.

Lemma length_filter_fmap (f : Cell → Cell) (P : Cell → Prop)
    `{!∀ x, Decision (P x)} (l : list Cell) :
  length (filter P (f <$> l)) = length (filter (λ x, P (f x)) l).
Proof.
  induction l as [|x l IH]; [done|].
  rewrite fmap_cons, !filter_cons.
  destruct (decide (P (f x))); simpl; by rewrite IH.
Qed.

(** [step] commutes with a bijection of the plane that maps board to board
    and keeps adjacency. *)
Lemma step_symmetry (f g : Cell → Cell) (rows cols rows' cols' : Z)
    (live : gset Cell) :
  (∀ p, g (f p) = p) → (∀ p, f (g p) = p) →
  (∀ p, on_board rows cols p ↔ on_board rows' cols' (f p)) →
  (∀ p q, q ∈ moore p ↔ f q ∈ moore (f p)) →
  step (set_map f live) rows' cols' = set_map f (step live rows cols).
Proof.
  intros Hgf Hfg Hboard Hadj.
  assert (Inj (=) (=) f) as Hinj.
  { intros x y Hxy. by rewrite <- (Hgf x), <- (Hgf y), Hxy. }
  assert (∀ p, f p ∈ (set_map f live : gset Cell) ↔ p ∈ live) as Hmem.
  { intros p. rewrite elem_of_map. split.
    - intros (x & Hx & ?). apply (inj f) in Hx. by subst x.
    - intros ?. by exists p. }
  assert (∀ p, live_neighbors (set_map f live) (f p) = live_neighbors live p)
    as Hcount.
  { intros p. unfold live_neighbors. f_equal.
    assert (moore (f p) ≡ₚ f <$> moore p) as ->.
    { apply NoDup_Permutation.
      - apply moore_NoDup.
      - apply NoDup_fmap_2; [done|apply moore_NoDup].
      - intros x. rewrite list_elem_of_fmap. split.
        + intros Hx. exists (g x). split; [by rewrite Hfg|].
          apply (proj2 (Hadj p (g x))). by rewrite Hfg.
        + intros (y & -> & Hy). by apply (proj1 (Hadj p y)). }
    rewrite length_filter_fmap. f_equal. apply list_filter_iff.
    intros x. apply Hmem. }
  assert (∀ p, rule (set_map f live) (f p) ↔ rule live p) as Hrule.
  { intros p. unfold rule. by rewrite Hcount, Hmem. }
  apply set_eq. intros p'. rewrite elem_of_step, elem_of_map. split.
  - intros [Hon Hr]. exists (g p'). rewrite Hfg. split; [done|].
    apply elem_of_step. rewrite <- (Hfg p') in Hon, Hr.
    split; [by apply Hboard|by apply Hrule].
  - intros (p & -> & [Hon Hr]%elem_of_step).
    split; [by apply Hboard|by apply Hrule].
Qed.

(** X8: [step] commutes with the symmetries of the board: transposing the
    live set (and swapping [rows] with [cols]), mirroring it top to bottom,
    or mirroring it left to right, and then stepping, gives the transposed
    or mirrored next generation. *)
Theorem step_board_symmetries (live : gset Cell) (rows cols : Z) :
  step (set_map prod_swap live) cols rows
    = set_map prod_swap (step live rows cols) ∧
  step (set_map (flip_rows rows) live) rows cols
    = set_map (flip_rows rows) (step live rows cols) ∧
  step (set_map (flip_cols cols) live) rows cols
    = set_map (flip_cols cols) (step live rows cols).
Proof.
  split_and!.
  - apply (step_symmetry prod_swap prod_swap).
    + by intros [].
    + by intros [].
    + intros [r c]. unfold on_board. simpl. tauto.
    + intros [pr pc] [qr qc]. rewrite !elem_of_moore. simpl. lia.
  - apply (step_symmetry (flip_rows rows) (flip_rows rows)).
    + intros [r c]. unfold flip_rows. simpl. f_equal. lia.
    + intros [r c]. unfold flip_rows. simpl. f_equal. lia.
    + intros [r c]. unfold on_board, flip_rows. simpl. lia.
    + intros [pr pc] [qr qc]. rewrite !elem_of_moore. simpl. lia.
  - apply (step_symmetry (flip_cols cols) (flip_cols cols)).
    + intros [r c]. unfold flip_cols. simpl. f_equal. lia.
    + intros [r c]. unfold flip_cols. simpl. f_equal. lia.
    + intros [r c]. unfold on_board, flip_cols. simpl. lia.
    + intros [pr pc] [qr qc]. rewrite !elem_of_moore. simpl. lia.
Qed.

(** * More on normalisation and seeding *)

Lemma normalize_cells_with (cells : list Cell) (min_r min_c : Z) :
  is_min min_r cells.*1 → is_min min_c cells.*2 →
  normalize_cells cells = Some (shift_by min_r min_c <$> cells).
Proof.
  intros Hr Hc.
  assert (cells ≠ []) as Hne.
  { intros ->. destruct Hr as [Hr _]. by apply elem_of_nil in Hr. }
  destruct (normalize_cells_cons cells Hne) as (mr & mc & Hmr & Hmc & ->).
  by rewrite (is_min_unique _ _ _ Hr Hmr), (is_min_unique _ _ _ Hc Hmc).
Qed.

Lemma translate_fst (dr dc : Z) (cells : list Cell) :
  (translate dr dc <$> cells).*1 = (λ r, r + dr) <$> cells.*1.
Proof. rewrite <- !list_fmap_compose. apply list_fmap_ext. by intros i [r c] _. Qed.

Lemma translate_snd (dr dc : Z) (cells : list Cell) :
  (translate dr dc <$> cells).*2 = (λ c, c + dc) <$> cells.*2.
Proof. rewrite <- !list_fmap_compose. apply list_fmap_ext. by intros i [r c] _. Qed.

Lemma is_min_add (m d : Z) (xs : list Z) :
  is_min m xs → is_min (m + d) ((λ x, x + d) <$> xs).
Proof.
  intros [Hin Hle]. split.
  - apply list_elem_of_fmap. by exists m.
  - intros y (x & -> & Hx)%list_elem_of_fmap. specialize (Hle _ Hx). lia.
Qed.

Lemma is_max_add (m d : Z) (xs : list Z) :
  is_max m xs → is_max (m + d) ((λ x, x + d) <$> xs).
Proof.
  intros [Hin Hle]. split.
  - apply list_elem_of_fmap. by exists m.
  - intros y (x & -> & Hx)%list_elem_of_fmap. specialize (Hle _ Hx). lia.
Qed.

(** X9: moving a pattern as a whole changes nothing: [normalize_cells] and
    [seed_pattern] give the same result for a cell list and for the list
    with every cell translated by the same [(dr, dc)]. *)
Theorem seed_pattern_translation (cells : list Cell) (dr dc rows cols : Z) :
  normalize_cells (translate dr dc <$> cells) = normalize_cells cells ∧
  seed_pattern (translate dr dc <$> cells) rows cols
    = seed_pattern cells rows cols.
Proof.
  assert (normalize_cells (translate dr dc <$> cells) = normalize_cells cells)
    as Hnorm.
  { destruct (decide (cells = [])) as [->|Hne]; [done|].
    destruct (normalize_cells_cons cells Hne) as (mr & mc & Hmr & Hmc & ->).
    rewrite (normalize_cells_with _ (mr + dr) (mc + dc)).
    - f_equal. rewrite <- list_fmap_compose. apply list_fmap_ext.
      intros i [r c] _. simpl. f_equal; lia.
    - rewrite translate_fst. by apply is_min_add.
    - rewrite translate_snd. by apply is_min_add. }
  split; [done|]. unfold seed_pattern. by rewrite Hnorm.
Qed.

Lemma elem_of_fst_iff (x : Z) (cells : list Cell) :
  x ∈ cells.*1 ↔ ∃ c, (x, c) ∈ cells.
Proof.
  rewrite list_elem_of_fmap. split.
  - intros ([r c] & -> & ?). by exists c.
  - intros (c & ?). by exists (x, c).
Qed.

Lemma elem_of_snd_iff (x : Z) (cells : list Cell) :
  x ∈ cells.*2 ↔ ∃ r, (r, x) ∈ cells.
Proof.
  rewrite list_elem_of_fmap. split.
  - intros ([r c] & -> & ?). by exists r.
  - intros (r & ?). by exists (r, x).
Qed.

Lemma is_min_same_elements (m : Z) (xs ys : list Z) :
  (∀ x, x ∈ xs ↔ x ∈ ys) → is_min m xs → is_min m ys.
Proof.
  intros H [Hin Hle]. split; [by apply H|]. intros y Hy. by apply Hle, H.
Qed.

Lemma is_max_same_elements (m : Z) (xs ys : list Z) :
  (∀ x, x ∈ xs ↔ x ∈ ys) → is_max m xs → is_max m ys.
Proof.
  intros H [Hin Hle]. split; [by apply H|]. intros y Hy. by apply Hle, H.
Qed.

Lemma same_cells_fst (cells1 cells2 : list Cell) :
  (∀ x, x ∈ cells1 ↔ x ∈ cells2) → ∀ r, r ∈ cells1.*1 ↔ r ∈ cells2.*1.
Proof.
  intros H r. rewrite !elem_of_fst_iff.
  split; intros (c & ?); exists c; by apply H.
Qed.

Lemma same_cells_snd (cells1 cells2 : list Cell) :
  (∀ x, x ∈ cells1 ↔ x ∈ cells2) → ∀ c, c ∈ cells1.*2 ↔ c ∈ cells2.*2.
Proof.
  intros H c. rewrite !elem_of_snd_iff.
  split; intros (r & ?); exists r; by apply H.
Qed.

(** X10: [seed_pattern] depends only on which cells the pattern has: two
    lists with the same members, in any order and with any repetitions,
    seed the same live set. *)
Theorem seed_pattern_same_cells (cells1 cells2 : list Cell) (rows cols : Z) :
  (∀ x, x ∈ cells1 ↔ x ∈ cells2) →
  seed_pattern cells1 rows cols = seed_pattern cells2 rows cols.
Proof.
  intros Hsame.
  destruct (decide (cells1 = [])) as [->|Hne1].
  { destruct cells2 as [|x cells2]; [done|].
    exfalso. eapply not_elem_of_nil, Hsame. by left. }
  assert (cells2 ≠ []) as Hne2.
  { intros ->. destruct cells1 as [|x cells1]; [done|].
    eapply not_elem_of_nil, Hsame. by left. }
  destruct (normalize_cells_cons cells1 Hne1) as (mr & mc & Hmr & Hmc & Hn1).
  pose proof (normalize_cells_with cells2 mr mc
                (is_min_same_elements _ _ _ (same_cells_fst _ _ Hsame) Hmr)
                (is_min_same_elements _ _ _ (same_cells_snd _ _ Hsame) Hmc))
    as Hn2.
  assert (∀ x, x ∈ shift_by mr mc <$> cells1 ↔ x ∈ shift_by mr mc <$> cells2)
    as Hsame'.
  { intros x. rewrite !list_elem_of_fmap.
    split; intros (y & -> & ?); exists y; (split; [done|by apply Hsame]). }
  destruct (seed_pattern_cons _ _ rows cols Hne1 Hn1)
    as (xr1 & xc1 & Hxr1 & Hxc1 & ->).
  destruct (seed_pattern_cons _ _ rows cols Hne2 Hn2)
    as (xr2 & xc2 & Hxr2 & Hxc2 & ->).
  rewrite <- (is_max_unique _ _ _
               (is_max_same_elements _ _ _ (same_cells_fst _ _ Hsame') Hxr1) Hxr2).
  rewrite <- (is_max_unique _ _ _
               (is_max_same_elements _ _ _ (same_cells_snd _ _ Hsame') Hxc1) Hxc2).
  f_equal. apply set_eq. intros p. rewrite !elem_of_placed.
  split; intros (cell & ? & ? & ?); exists cell;
    (split_and!; [by apply Hsame'|done..]).
Qed.

Lemma seed_pattern_same_cells_witness :
  seed_pattern [(0, 1); (1, 3); (2, 0)] 24 80
    = seed_pattern [(2, 0); (0, 1); (2, 0); (1, 3)] 24 80.
Proof.
  apply (seed_pattern_same_cells
           [(0, 1); (1, 3); (2, 0)] [(2, 0); (0, 1); (2, 0); (1, 3)] 24 80).
  intros x. rewrite !elem_of_cons, !elem_of_nil. tauto.
Defined.

Lemma half_margin (size extent : Z) :
  extent ≤ size →
  0 ≤ (size - extent) `div` 2 ∧
  0 ≤ (size - extent - (size - extent) `div` 2) - (size - extent) `div` 2 ≤ 1.
Proof.
  intros Hfit.
  pose proof (Z.div_mod (size - extent) 2 ltac:(lia)).
  pose proof (Z.mod_pos_bound (size - extent) 2 ltac:(lia)).
  lia.
Qed.

(** X11: a pattern whose bounding box fits the board is placed as a rigid
    copy, centred: the seeded set is the input translated by one vector,
    which puts the top-left corner of the bounding box at
    [((rows - height) // 2, (cols - width) // 2)]; the margin below (right)
    equals the margin above (left) or exceeds it by one. *)
Theorem seed_pattern_centred_copy (cells : list Cell)
    (rows cols min_r max_r min_c max_c : Z) :
  is_min min_r cells.*1 → is_max max_r cells.*1 →
  is_min min_c cells.*2 → is_max max_c cells.*2 →
  max_r - min_r + 1 ≤ rows → max_c - min_c + 1 ≤ cols →
  let height := max_r - min_r + 1 in
  let width := max_c - min_c + 1 in
  let top := (rows - height) `div` 2 in
  let left := (cols - width) `div` 2 in
  seed_pattern cells rows cols
    = Some (list_to_set (translate (top - min_r) (left - min_c) <$> cells)) ∧
  0 ≤ top ∧ 0 ≤ (rows - height - top) - top ≤ 1 ∧
  0 ≤ left ∧ 0 ≤ (cols - width - left) - left ≤ 1.
Proof.
  intros Hmr Hxr Hmc Hxc Hfr Hfc height width top left.
  destruct (half_margin rows height Hfr) as [Htop Hmr'].
  destruct (half_margin cols width Hfc) as [Hleft Hmc'].
  split; [|unfold top, left; lia].
  assert (cells ≠ []) as Hne.
  { intros ->. destruct Hmr as [Hmr _]. by apply elem_of_nil in Hmr. }
  pose proof (normalize_cells_with cells min_r min_c Hmr Hmc) as Hnorm.
  destruct (seed_pattern_cons _ _ rows cols Hne Hnorm)
    as (xr & xc & Hxr' & Hxc' & ->).
  rewrite shift_by_fst in Hxr'. rewrite shift_by_snd in Hxc'.
  pose proof (is_max_add _ (- min_r) _ Hxr) as Hxr2.
  pose proof (is_max_add _ (- min_c) _ Hxc) as Hxc2.
  rewrite (is_max_unique _ _ _ Hxr' Hxr2), (is_max_unique _ _ _ Hxc' Hxc2).
  replace (max_r + - min_r + 1) with height by (unfold height; lia).
  replace (max_c + - min_c + 1) with width by (unfold width; lia).
  fold top. fold left. rewrite !Z.max_r by done.
  rewrite placed_all.
  - f_equal. f_equal. rewrite <- list_fmap_compose. apply list_fmap_ext.
    intros i [r c] _. unfold translate. simpl. f_equal; lia.
  - intros [r c] Hin. apply list_elem_of_fmap in Hin as ([r0 c0] & [= -> ->] & Hin).
    pose proof (proj2 Hmr r0 (elem_of_fst _ _ _ Hin)).
    pose proof (proj2 Hxr r0 (elem_of_fst _ _ _ Hin)).
    pose proof (proj2 Hmc c0 (elem_of_snd _ _ _ Hin)).
    pose proof (proj2 Hxc c0 (elem_of_snd _ _ _ Hin)).
    unfold on_board, translate. simpl. unfold height, width in *. lia.
Qed.

Lemma seed_pattern_centred_copy_witness :
  let height := 2 - 0 + 1 in
  let width := 6 - 0 + 1 in
  let top := (24 - height) `div` 2 in
  let left := (80 - width) `div` 2 in
  seed_pattern [(0, 1); (1, 3); (2, 0); (2, 1); (2, 4); (2, 5); (2, 6)] 24 80
    = Some (list_to_set
              (translate (top - 0) (left - 0)
                 <$> [(0, 1); (1, 3); (2, 0); (2, 1); (2, 4); (2, 5); (2, 6)])) ∧
  0 ≤ top ∧ 0 ≤ (24 - height - top) - top ≤ 1 ∧
  0 ≤ left ∧ 0 ≤ (80 - width - left) - left ≤ 1.
Proof.
  apply (seed_pattern_centred_copy
           [(0, 1); (1, 3); (2, 0); (2, 1); (2, 4); (2, 5); (2, 6)]
           24 80 0 2 0 6);
    try (split; [by apply (bool_decide_unpack _)|];
         intros x Hx; simpl in Hx;
         repeat (apply elem_of_cons in Hx as [-> | Hx]; [lia|]);
         by apply elem_of_nil in Hx);
    lia.
Defined.

(** X16: seeding never adds cells, and a pattern too large for the board is
    cut, not moved: the seeded set has at most as many cells as the pattern
    has distinct cells, and when the board exceeds the bounding box by at
    most one row and one column (or is smaller), both offsets are 0 and the
    seeded set is the part of the normalized pattern that lies on the
    board. *)
Theorem seed_pattern_clips (cells : list Cell) (rows cols : Z) :
  ∃ normalized live,
    normalize_cells cells = Some normalized ∧
    seed_pattern cells rows cols = Some live ∧
    (size live ≤ size (list_to_set cells : gset Cell))%nat ∧
    (∀ max_r max_c,
       is_max max_r normalized.*1 → is_max max_c normalized.*2 →
       rows ≤ max_r + 2 → cols ≤ max_c + 2 →
       ∀ p, p ∈ live ↔ p ∈ normalized ∧ on_board rows cols p).
Proof.
  destruct (decide (cells = [])) as [->|Hne].
  { exists [], ∅. split_and!; [done..|].
    intros max_r max_c [Hin _]. by apply elem_of_nil in Hin. }
  destruct (normalize_cells_cons cells Hne) as (mr & mc & _ & _ & Hnorm).
  destruct (seed_pattern_cons _ _ rows cols Hne Hnorm)
    as (xr & xc & Hxr & Hxc & Hseed).
  eexists _, _. split_and!; [exact Hnorm|exact Hseed|..].
  - etrans.
    + apply subseteq_size.
      instantiate (1 := list_to_set (translate _ _ <$> (shift_by mr mc <$> cells))).
      intros p Hp. apply elem_of_placed in Hp as (cell & Hin & -> & _).
      apply elem_of_list_to_set, list_elem_of_fmap. by exists cell.
    + rewrite shift_by_translate.
      by rewrite !size_list_to_set_fmap_inj by apply _.
  - intros max_r max_c Hxr' Hxc' Hrows Hcols p.
    rewrite (is_max_unique _ _ _ Hxr Hxr'), (is_max_unique _ _ _ Hxc Hxc').
    assert ((rows - (max_r + 1)) `div` 2 ≤ 0) as Hr0
      by (apply Z.lt_succ_r, Z.div_lt_upper_bound; lia).
    assert ((cols - (max_c + 1)) `div` 2 ≤ 0) as Hc0
      by (apply Z.lt_succ_r, Z.div_lt_upper_bound; lia).
    rewrite !Z.max_l by done. rewrite elem_of_placed.
    split.
    + intros ([r c] & Hin & -> & Hon). unfold translate in *. simpl in *.
      rewrite !Z.add_0_r in *. done.
    + intros [Hin Hon]. exists p. split_and!; [done| |done].
      destruct p as [r c]. unfold translate. simpl. f_equal; lia.
Qed.

Lemma seed_pattern_clips_witness :
  ∃ normalized live,
    normalize_cells [(0, 1); (1, 3); (2, 0); (2, 6)] = Some normalized ∧
    seed_pattern [(0, 1); (1, 3); (2, 0); (2, 6)] 2 4 = Some live ∧
    (size live ≤ size (list_to_set [(0, 1); (1, 3); (2, 0); (2, 6)]%Z
                         : gset Cell))%nat ∧
    (∀ max_r max_c,
       is_max max_r normalized.*1 → is_max max_c normalized.*2 →
       2 ≤ max_r + 2 → 4 ≤ max_c + 2 →
       ∀ p, p ∈ live ↔ p ∈ normalized ∧ on_board 2 4 p).
Proof. exact (seed_pattern_clips [(0, 1); (1, 3); (2, 0); (2, 6)] 2 4). Defined.

(** * More on the frame loop *)

Lemma seed_pattern_on_board (cells : list Cell) (rows cols : Z)
    (live : gset Cell) (p : Cell) :
  seed_pattern cells rows cols = Some live → p ∈ live → on_board rows cols p.
Proof.
  destruct (decide (cells = [])) as [->|Hne].
  { intros [= <-] Hp. by apply not_elem_of_empty in Hp. }
  destruct (normalize_cells_total cells) as [normalized Hnorm].
  destruct (seed_pattern_cons _ _ rows cols Hne Hnorm) as (? & ? & _ & _ & ->).
  intros [= <-] Hp. by apply elem_of_placed in Hp as (_ & _ & _ & ?).
Qed.

Section FrameLoopInvariant.

Import Orchestrator.

Context (hash : gset Cell → Z).

Lemma reseed_valid (index : nat) (rows cols : Z) :
  (index < length patterns)%nat →
  ∃ seed, reseed index rows cols = Some seed ∧
          ∀ p, p ∈ seed → on_board rows cols p.
Proof.
  intros Hi. unfold reseed.
  destruct (lookup_lt_is_Some_2 patterns index Hi) as [pat ->]. simpl.
  destruct (seed_pattern_total (cells pat) rows cols) as [seed Hseed].
  exists seed. split; [done|]. intros p. by eapply seed_pattern_on_board.
Qed.

Lemma next_pattern_valid (st : state) :
  ∃ st', next_pattern st = Some st' ∧ valid_state st' ∧ advanced st st'.
Proof.
  unfold next_pattern.
  assert ((pattern_index st + 1) `mod` length patterns < length patterns)%nat
    as Hi by (apply Nat.mod_upper_bound; done).
  destruct (reseed_valid _ (rows st) (cols st) Hi) as (seed & Hseed & Hon).
  rewrite Hseed. simpl. eexists. split; [done|]. by split.
Qed.

Lemma on_resize_valid (st : state) (size : Z * Z) :
  valid_state st →
  ∃ st', on_resize st size = Some st' ∧ valid_state st' ∧
         pattern_index st' = pattern_index st ∧
         rows st' = size.1 ∧ cols st' = size.2.
Proof.
  intros [Hi Hon]. destruct size as [rows_now cols_now]. unfold on_resize.
  case_bool_decide as Hsize.
  - destruct (reseed_valid _ rows_now cols_now Hi) as (seed & -> & Hseed).
    simpl. eexists. split; [done|]. by split_and!.
  - injection Hsize as -> ->.
    exists st. by split_and!.
Qed.

Lemma valid_state_step (st : state) (seen : gset Z) :
  valid_state st →
  valid_state (State (pattern_index st) (rows st) (cols st)
                 (step (live st) (rows st) (cols st)) seen).
Proof.
  intros [Hi _]. split; [done|]. simpl.
  intros p Hp. by apply elem_of_step in Hp as [? _].
Qed.

(** X12: the loop never raises and keeps its variables consistent.  The
    start-up code yields a state whose pattern index is within the catalogue
    and whose live cells are on the board; from such a state a frame, for
    any terminal size and any key, returns; the set it hands to [draw] lies
    within the terminal size just read; and unless it breaks out of the loop
    it leaves such a state again, recording that same size. *)
Theorem run_loop_invariant :
  (∀ size, ∃ st, run_init size = Some st ∧ valid_state st ∧
                 rows st = size.1 ∧ cols st = size.2) ∧
  (∀ st size key, valid_state st →
     ∃ drawn fl,
       run_frame hash st size key = Some (drawn, fl) ∧
       (∀ p, p ∈ drawn → on_board size.1 size.2 p) ∧
       match fl with
       | Break => True
       | Next st' => valid_state st' ∧ rows st' = size.1 ∧ cols st' = size.2
       end).
Proof.
  split.
  - intros [r c]. unfold run_init.
    destruct (reseed_valid 0 r c) as (seed & -> & Hseed);
      [simpl; lia|].
    simpl. eexists. split; [done|]. split_and!; [|done..].
    split; [simpl; lia|done].
  - intros st size key Hst. unfold run_frame.
    destruct (on_resize_valid st size Hst) as (st1 & -> & Hst1 & _ & Hr & Hc).
    cbn [mbind option_bind].
    assert (∀ p, p ∈ live st1 → on_board size.1 size.2 p) as Hdrawn.
    { intros p. rewrite <- Hr, <- Hc. apply Hst1. }
    destruct (bool_decide (key = ord "q") || bool_decide (key = ord "Q")).
    { by eexists _, _. }
    assert (∃ st2, (if bool_decide (key = ord "n") || bool_decide (key = ord "N")
                    then next_pattern st1 else Some st1) = Some st2 ∧
                   valid_state st2 ∧ rows st2 = size.1 ∧ cols st2 = size.2)
      as (st2 & -> & Hst2 & Hr2 & Hc2).
    { destruct (_ || _); [|by exists st1].
      destruct (next_pattern_valid st1)
        as (st2 & -> & ? & _ & Hr2 & Hc2 & _).
      exists st2. split_and!; [done..|congruence|congruence]. }
    cbn [mbind option_bind].
    destruct (detect hash (seen_states st2) (live st2)) as [[|] seen'].
    + destruct (next_pattern_valid st2)
        as (st3 & -> & ? & _ & Hr3 & Hc3 & _).
      cbn [mbind option_bind]. eexists _, _. split; [done|].
      split_and!; [done..|congruence|congruence].
    + eexists _, _. split; [done|].
      split_and!; [done|by apply valid_state_step|done..].
Qed.

End FrameLoopInvariant.

Lemma run_loop_invariant_witness :
  ∃ drawn fl,
    Orchestrator.run_frame sample_hash
      (Orchestrator.State 0 24 80 blinker_h ∅) (30, 100) 110
      = Some (drawn, fl) ∧
    (∀ p, p ∈ drawn → on_board (30, 100).1 (30, 100).2 p) ∧
    match fl with
    | Orchestrator.Break => True
    | Orchestrator.Next st' =>
        valid_state st' ∧ Orchestrator.rows st' = (30, 100).1 ∧
        Orchestrator.cols st' = (30, 100).2
    end.
Proof.
  apply (proj2 (run_loop_invariant sample_hash)
           (Orchestrator.State 0 24 80 blinker_h ∅) (30, 100) 110).
  split; simpl; [lia|].
  intros p Hp. unfold blinker_h in Hp.
  rewrite !elem_of_union, !elem_of_singleton in Hp.
  destruct Hp as [[-> | ->] | ->]; unfold on_board; simpl; lia.
Defined.

Section FrameLoopBehaviour.

Import Orchestrator.

Context (hash : gset Cell → Z).

(** X13: the keys [q] and [Q] (codes 113 and 81), and no others, end the
    loop: the frame still reseeds on a changed size and draws, then breaks
    without touching the pattern index, the live set or the history. *)
Theorem quit_keys (st : state) (size : Z * Z) (key : Z) :
  valid_state st →
  (key = 113 ∨ key = 81 →
   ∃ st1, on_resize st size = Some st1 ∧
          run_frame hash st size key = Some (live st1, Break)) ∧
  (key = 113 ∨ key = 81 →
   run_frame hash st (rows st, cols st) key = Some (live st, Break)) ∧
  (∀ drawn, run_frame hash st size key = Some (drawn, Break) →
            key = 113 ∨ key = 81).
Proof.
  intros Hst.
  destruct (on_resize_valid st size Hst) as (st1 & Hres & _).
  assert (key = 113 ∨ key = 81 →
          bool_decide (key = ord "q") || bool_decide (key = ord "Q") = true)
    as Hq by (intros [-> | ->]; done).
  split_and!.
  - intros Hkey. exists st1. split; [done|].
    unfold run_frame. rewrite Hres. cbn [mbind option_bind].
    by rewrite (Hq Hkey).
  - intros Hkey. unfold run_frame. rewrite on_resize_same.
    cbn [mbind option_bind]. by rewrite (Hq Hkey).
  - intros drawn. unfold run_frame. rewrite Hres. cbn [mbind option_bind].
    destruct (bool_decide (key = ord "q")) eqn:H1.
    { apply bool_decide_eq_true in H1. by left. }
    destruct (bool_decide (key = ord "Q")) eqn:H2.
    { apply bool_decide_eq_true in H2. by right. }
    cbn [orb].
    destruct (if bool_decide (key = ord "n") || bool_decide (key = ord "N")
              then next_pattern st1 else Some st1) as [st2|]; [|done].
    cbn [mbind option_bind].
    destruct (detect hash _ _) as [[|] ?]; [|done].
    by destruct (next_pattern st2).
Qed.

Lemma run_frame_draws (st : state) (key : Z) :
  ∃ fl, run_frame hash st (rows st, cols st) key = Some (live st, fl).
Proof.
  unfold run_frame. rewrite on_resize_same. cbn [mbind option_bind].
  destruct (bool_decide (key = ord "q") || bool_decide (key = ord "Q"));
    [by eexists|].
  assert (∃ st2, (if bool_decide (key = ord "n") || bool_decide (key = ord "N")
                  then next_pattern st else Some st) = Some st2)
    as [st2 ->].
  { destruct (_ || _); [|by exists st].
    destruct (next_pattern_valid st) as (st2 & -> & _). by exists st2. }
  cbn [mbind option_bind].
  destruct (detect hash (seen_states st2) (live st2)) as [[|] seen'];
    [|by eexists].
  destruct (next_pattern_valid st2) as (st3 & -> & _). by eexists.
Qed.

(** A frame that sees the "next pattern" key and seeds an empty set (a
    board with no room): the terminal branch advances once more. *)
Lemma run_frame_next_key_empty (st st2 : state) (key : Z) :
  key = ord "n" ∨ key = ord "N" →
  next_pattern st = Some st2 → live st2 = ∅ →
  ∃ st3, run_frame hash st (rows st, cols st) key = Some (live st, Next st3) ∧
         advanced st2 st3.
Proof.
  intros Hkey Hnext Hempty.
  unfold run_frame. rewrite on_resize_same. cbn [mbind option_bind].
  assert (bool_decide (key = ord "q") || bool_decide (key = ord "Q") = false)
    as -> by (destruct Hkey as [-> | ->]; done).
  assert (bool_decide (key = ord "n") || bool_decide (key = ord "N") = true)
    as -> by (destruct Hkey as [-> | ->]; done).
  rewrite Hnext. cbn [mbind option_bind].
  rewrite detect_terminal by (by right).
  destruct (next_pattern_valid st2) as (st3 & -> & _ & Hadv).
  by exists st3.
Qed.

(** X14: a frame that finds the terminal size changed throws away the live
    set and the history, whatever they were, and whatever key it reads: it
    behaves as the frame started from the current pattern freshly seeded at
    the new size with an empty history, and that seed is what it draws.
    After the draw: [q]/[Q] break; with no key of interest a non-empty seed
    is stepped, its fingerprint being the whole history, and an empty seed
    moves on to the next pattern with the history cleared; [n]/[N] move on
    to the next pattern, whose seed is stepped at once if non-empty, and
    passed over for the pattern after it if empty. *)
Theorem resize_reseeds (st : state) (size : Z * Z) :
  valid_state st → size ≠ (rows st, cols st) →
  ∃ seed,
    reseed (pattern_index st) size.1 size.2 = Some seed ∧
    let fresh := State (pattern_index st) size.1 size.2 seed ∅ in
    (∀ key, run_frame hash st size key = run_frame hash fresh size key) ∧
    (∀ key, ∃ fl, run_frame hash st size key = Some (seed, fl)) ∧
    (∀ key, key = ord "q" ∨ key = ord "Q" →
       run_frame hash st size key = Some (seed, Break)) ∧
    (∀ key,
       key ≠ ord "q" → key ≠ ord "Q" → key ≠ ord "n" → key ≠ ord "N" →
       (seed ≠ ∅ →
        run_frame hash st size key =
          Some (seed, Next (State (pattern_index st) size.1 size.2
                              (step seed size.1 size.2) {[ hash seed ]}))) ∧
       (seed = ∅ →
        ∃ st', run_frame hash st size key = Some (seed, Next st') ∧
               advanced fresh st')) ∧
    (∀ key, key = ord "n" ∨ key = ord "N" →
       ∃ st2, next_pattern fresh = Some st2 ∧ advanced fresh st2 ∧
         (live st2 ≠ ∅ →
          run_frame hash st size key =
            Some (seed, Next (State (pattern_index st2) size.1 size.2
                                (step (live st2) size.1 size.2)
                                {[ hash (live st2) ]}))) ∧
         (live st2 = ∅ →
          ∃ st3, run_frame hash st size key = Some (seed, Next st3) ∧
                 advanced st2 st3)).
Proof.
  intros [Hi _] Hsize. destruct size as [r c]. cbn [fst snd].
  destruct (reseed_valid (pattern_index st) r c Hi) as (seed & Hseed & _).
  exists seed. split; [done|].
  set (fresh := State (pattern_index st) r c seed ∅).
  assert (on_resize fresh (r, c) = Some fresh) as Hsame
    by apply (on_resize_same fresh).
  assert (∀ key, run_frame hash st (r, c) key = run_frame hash fresh (r, c) key)
    as Hfresh.
  { intros key. unfold run_frame at 1 2. rewrite Hsame.
    unfold on_resize. rewrite (bool_decide_eq_true_2 _ Hsize).
    by rewrite Hseed. }
  split; [done|]. split_and!.
  - intros key. rewrite Hfresh. apply (run_frame_draws fresh).
  - intros key Hkey. rewrite Hfresh.
    unfold run_frame. rewrite Hsame. cbn [mbind option_bind].
    by assert (bool_decide (key = ord "q") || bool_decide (key = ord "Q") = true)
      as -> by (destruct Hkey as [-> | ->]; done).
  - intros key Hq HQ Hn HN. rewrite Hfresh.
    pose proof (run_frame_idle hash fresh key Hq HQ Hn HN) as Hidle.
    change (rows fresh, cols fresh) with (r, c) in Hidle. rewrite Hidle.
    change (seen_states fresh) with (∅ : gset Z).
    change (live fresh) with seed.
    split.
    + intros Hne. rewrite detect_continue; [|apply not_elem_of_empty|done].
      by rewrite (right_id_L ∅ (∪)).
    + intros Hempty. rewrite detect_terminal by (by right).
      destruct (next_pattern_valid fresh) as (st' & Hnext & _ & Hadv).
      rewrite Hnext. by exists st'.
  - intros key Hkey.
    destruct (next_pattern_valid fresh) as (st2 & Hnext & _ & Hadv).
    exists st2. split_and!; [done..| |].
    + intros Hne. rewrite Hfresh.
      apply (run_frame_next_key hash fresh st2 key Hkey Hnext Hne).
    + intros Hempty. rewrite Hfresh.
      apply (run_frame_next_key_empty fresh st2 key Hkey Hnext Hempty).
Qed.

Lemma idle_frame_cases (st : state) :
  (∃ st', run_frame hash st (rows st, cols st) (-1) = Some (live st, Next st') ∧
          advanced st st' ∧
          (hash (live st) ∈ seen_states st ∨ live st = ∅)) ∨
  ((hash (live st) ∉ seen_states st) ∧ live st ≠ ∅ ∧
   run_frame hash st (rows st, cols st) (-1) =
     Some (live st,
           Next (State (pattern_index st) (rows st) (cols st)
                   (step (live st) (rows st) (cols st))
                   ({[ hash (live st) ]} ∪ seen_states st)))).
Proof.
  rewrite run_frame_idle by done.
  destruct (decide (hash (live st) ∈ seen_states st ∨ live st = ∅)) as [Ht|Hc].
  - left. rewrite detect_terminal by done.
    destruct (next_pattern_valid st) as (st' & -> & _ & Hadv).
    by exists st'.
  - right. assert (hash (live st) ∉ seen_states st) by tauto.
    assert (live st ≠ ∅) by tauto.
    by rewrite detect_continue.
Qed.

Lemma generation_succ (rows cols : Z) (n : nat) (live : gset Cell) :
  generation rows cols (S n) live
    = generation rows cols n (step live rows cols).
Proof. unfold generation. by rewrite Nat.iter_succ_r. Qed.

(** If within [d] generations the live set reaches a set whose fingerprint
    is in the history, or dies out, the loop has moved to the next pattern
    after at most [d + 1] idle frames. *)
Lemma cycle_caught (d : nat) (st : state) :
  (∃ i, (i ≤ d)%nat ∧
        (hash (generation (rows st) (cols st) i (live st)) ∈ seen_states st ∨
         generation (rows st) (cols st) i (live st) = ∅)) →
  ∃ j st', (1 ≤ j ≤ S d)%nat ∧ idle_frames hash j st = Some st' ∧
           advanced st st'.
Proof.
  revert st. induction d as [|d IH]; intros st (i & Hi & Hhit).
  - assert (i = 0)%nat as -> by lia. simpl in Hhit.
    destruct (idle_frame_cases st) as [(st' & Hrun & Hadv & _)|(? & ? & _)];
      [|tauto].
    exists 1%nat, st'. split_and!; [lia..| |done]. simpl. by rewrite Hrun.
  - destruct (idle_frame_cases st) as [(st' & Hrun & Hadv & _)|(Hs & He & Hrun)].
    { exists 1%nat, st'. split_and!; [lia..| |done]. simpl. by rewrite Hrun. }
    destruct i as [|i]; [simpl in Hhit; tauto|].
    rewrite generation_succ in Hhit.
    destruct (IH (State (pattern_index st) (rows st) (cols st)
                    (step (live st) (rows st) (cols st))
                    ({[ hash (live st) ]} ∪ seen_states st)))
      as (j & st' & Hj & Hframes & Hadv).
    { exists i. split; [lia|]. simpl.
      destruct Hhit as [Hin|Hdead]; [left|by right].
      by apply elem_of_union_r. }
    exists (S j), st'. split_and!; [lia..| |done].
    simpl. by rewrite Hrun.
Qed.

(** X15: the loop does not stay on a pattern that repeats or dies: if the
    live set returns to itself after [k >= 1] generations, or is empty after
    [k] generations, then after at most [k + 1] frames with no key pressed
    and no resize the loop has moved to the next pattern of the catalogue,
    reseeded it at the same size and cleared the history. *)
Theorem oscillator_reseeds (st : state) (k : nat) :
  ((1 ≤ k)%nat ∧ generation (rows st) (cols st) k (live st) = live st) ∨
  generation (rows st) (cols st) k (live st) = ∅ →
  ∃ j st', (1 ≤ j ≤ k + 1)%nat ∧ idle_frames hash j st = Some st' ∧
           advanced st st'.
Proof.
  intros [[Hk Hper]|Hdead].
  - destruct (idle_frame_cases st) as [(st' & Hrun & Hadv & _)|(Hs & He & Hrun)].
    { exists 1%nat, st'. split_and!; [lia..| |done]. simpl. by rewrite Hrun. }
    destruct k as [|k]; [lia|]. rewrite generation_succ in Hper.
    destruct (cycle_caught k (State (pattern_index st) (rows st) (cols st)
                                (step (live st) (rows st) (cols st))
                                ({[ hash (live st) ]} ∪ seen_states st)))
      as (j & st' & Hj & Hframes & Hadv).
    { exists k. split; [done|]. left. simpl. rewrite Hper.
      by apply elem_of_union_l, elem_of_singleton. }
    exists (S j), st'. split_and!; [lia..| |done].
    simpl. by rewrite Hrun.
  - destruct (cycle_caught k st) as (j & st' & Hj & Hframes & Hadv).
    { exists k. split; [done|]. by right. }
    exists j, st'. split_and!; [lia..|done|done].
Qed.

End FrameLoopBehaviour.

Lemma quit_keys_witness :
  (113 = 113 ∨ 113 = 81 →
   ∃ st1, Orchestrator.on_resize (Orchestrator.State 0 24 80 ∅ ∅) (30, 100)
            = Some st1 ∧
          Orchestrator.run_frame sample_hash
            (Orchestrator.State 0 24 80 ∅ ∅) (30, 100) 113
            = Some (Orchestrator.live st1, Orchestrator.Break)) ∧
  (113 = 113 ∨ 113 = 81 →
   Orchestrator.run_frame sample_hash (Orchestrator.State 0 24 80 ∅ ∅)
     (Orchestrator.rows (Orchestrator.State 0 24 80 ∅ ∅),
      Orchestrator.cols (Orchestrator.State 0 24 80 ∅ ∅)) 113
     = Some (Orchestrator.live (Orchestrator.State 0 24 80 ∅ ∅),
             Orchestrator.Break)) ∧
  (∀ drawn,
     Orchestrator.run_frame sample_hash (Orchestrator.State 0 24 80 ∅ ∅)
       (30, 100) 113 = Some (drawn, Orchestrator.Break) →
     113 = 113 ∨ 113 = 81).
Proof.
  apply (quit_keys sample_hash (Orchestrator.State 0 24 80 ∅ ∅) (30, 100) 113).
  split; simpl; [lia|]. intros p Hp. by apply not_elem_of_empty in Hp.
Defined.

Lemma resize_reseeds_witness :
  ∃ seed,
    Orchestrator.reseed 2 (24, 80).1 (24, 80).2 = Some seed ∧
    let st := Orchestrator.State 2 10 10 blinker_h {[ 7 ]} in
    let fresh := Orchestrator.State 2 (24, 80).1 (24, 80).2 seed ∅ in
    (∀ key, Orchestrator.run_frame sample_hash st (24, 80) key
            = Orchestrator.run_frame sample_hash fresh (24, 80) key) ∧
    (∀ key, ∃ fl, Orchestrator.run_frame sample_hash st (24, 80) key
                  = Some (seed, fl)) ∧
    (∀ key, key = Orchestrator.ord "q" ∨ key = Orchestrator.ord "Q" →
       Orchestrator.run_frame sample_hash st (24, 80) key
         = Some (seed, Orchestrator.Break)) ∧
    (∀ key,
       key ≠ Orchestrator.ord "q" → key ≠ Orchestrator.ord "Q" →
       key ≠ Orchestrator.ord "n" → key ≠ Orchestrator.ord "N" →
       (seed ≠ ∅ →
        Orchestrator.run_frame sample_hash st (24, 80) key =
          Some (seed,
                Orchestrator.Next
                  (Orchestrator.State 2 (24, 80).1 (24, 80).2
                     (step seed (24, 80).1 (24, 80).2)
                     {[ sample_hash seed ]}))) ∧
       (seed = ∅ →
        ∃ st', Orchestrator.run_frame sample_hash st (24, 80) key
                 = Some (seed, Orchestrator.Next st') ∧
               advanced fresh st')) ∧
    (∀ key, key = Orchestrator.ord "n" ∨ key = Orchestrator.ord "N" →
       ∃ st2, Orchestrator.next_pattern fresh = Some st2 ∧
         advanced fresh st2 ∧
         (Orchestrator.live st2 ≠ ∅ →
          Orchestrator.run_frame sample_hash st (24, 80) key =
            Some (seed,
                  Orchestrator.Next
                    (Orchestrator.State (Orchestrator.pattern_index st2)
                       (24, 80).1 (24, 80).2
                       (step (Orchestrator.live st2) (24, 80).1 (24, 80).2)
                       {[ sample_hash (Orchestrator.live st2) ]}))) ∧
         (Orchestrator.live st2 = ∅ →
          ∃ st3, Orchestrator.run_frame sample_hash st (24, 80) key
                   = Some (seed, Orchestrator.Next st3) ∧
                 advanced st2 st3)).
Proof.
  apply (resize_reseeds sample_hash
           (Orchestrator.State 2 10 10 blinker_h {[ 7 ]}) (24, 80)).
  - split; simpl; [lia|].
    intros p Hp. unfold blinker_h in Hp.
    rewrite !elem_of_union, !elem_of_singleton in Hp.
    destruct Hp as [[-> | ->] | ->]; unfold on_board; simpl; lia.
  - simpl. intros [= ? ?].
Defined.

Lemma oscillator_reseeds_witness :
  ∃ j st', (1 ≤ j ≤ 2 + 1)%nat ∧
    idle_frames sample_hash j (Orchestrator.State 0 10 10 blinker_h ∅)
      = Some st' ∧
    advanced (Orchestrator.State 0 10 10 blinker_h ∅) st'.
Proof.
  apply (oscillator_reseeds sample_hash
           (Orchestrator.State 0 10 10 blinker_h ∅) 2).
  left. split; [lia|]. vm_compute. reflexivity.
Defined.
